(** * Citation validation and proposition-support pipeline

    A shallow embedding of the core of [src/courtlistener.py] and
    [src/evaluation.py]: the retry policy, the validation cache and
    validator, the opinion chunker, the chunked proposition-support
    fallback and the per-document orchestrator, together with the
    properties the specification states about them.

    Conventions.
    - Python [int] is [Z]; [len] is [py_len]; slices are [py_slice] with
      Python's clamping and negative-index rules.
    - Python [str] is [string]; the chunker only uses [len] and slicing and
      is written over [list A] (it is applied to the characters of a string).
    - Delays are Python floats; they only arise as
      [min (base * 2^k [* 2]) max], which binary floating point computes
      exactly below overflow, so they are modelled as exact rationals [Qc].
    - [while] loops carry explicit fuel and return [None] when it runs out;
      termination is proved separately wherever a result is claimed. *)

From Stdlib Require Import ZArith Lia QArith Qcanon.
From Stdlib Require Import Ascii String DecimalString DecimalPos DecimalZ.
From stdpp Require Import base option list numbers strings gmap sorting.

Local Open Scope Z_scope.

(** ** Python sequence primitives *)

Module Py.

Definition py_len {A} (l : list A) : Z := Z.of_nat (length l).

(** Normalisation of one slice bound against a length [n]: a negative bound
    counts from the end, then the bound is clamped to [0, n]. *)
Definition slice_index (n k : Z) : Z :=
  if k <? 0 then Z.max (k + n) 0 else Z.min k n.

(** [l[i:j]] *)
Definition py_slice {A} (l : list A) (i j : Z) : list A :=
  let n := py_len l in
  let i' := slice_index n i in
  let j' := slice_index n j in
  take (Z.to_nat (j' - i')) (drop (Z.to_nat i') l).

(** [l[i:]] *)
Definition py_slice_from {A} (l : list A) (i : Z) : list A :=
  drop (Z.to_nat (slice_index (py_len l) i)) l.

(** Python's [min(a, b)]: the first argument unless the second is
    strictly smaller. *)
Definition py_min (a b : Qc) : Qc := if decide (b < a)%Qc then b else a.

End Py.
Import Py.

(** ** The opinion chunker ([evaluation.py], [_chunk_text]) *)

Module Chunker.

Section Loop.
Context {A : Type}.

(** The [while start < len(text)] loop; [chunks] is the list being
    appended to. *)
Fixpoint chunk_loop (fuel : nat) (text : list A) (chunk_size overlap : Z)
    (start : Z) (chunks : list (list A)) : option (list (list A)) :=
  match fuel with
  | O => None
  | S fuel' =>
      if start <? py_len text then
        let end_ := start + chunk_size in
        let chunk := py_slice text start end_ in
        chunk_loop fuel' text chunk_size overlap (end_ - overlap) (chunks ++ [chunk])
      else Some chunks
  end.

Definition _chunk_text (fuel : nat) (text : list A) (chunk_size overlap : Z)
    : option (list (list A)) :=
  if py_len text <=? chunk_size then Some [text]
  else chunk_loop fuel text chunk_size overlap 0 [].

(** The [k]-th window of the sliding scheme: it starts at
    [k * (size - overlap)] and holds at most [size] elements. *)
Definition window (text : list A) (size overlap k : nat) : list A :=
  take size (drop (k * (size - overlap)) text).

(** Number of windows the loop produces: the least [m] with
    [m * (size - overlap) >= len]. *)
Definition window_count (len size overlap : nat) : nat :=
  (len + (size - overlap) - 1) / (size - overlap).

Definition windows (text : list A) (size overlap : nat) : list (list A) :=
  map (window text size overlap) (seq 0 (window_count (length text) size overlap)).

End Loop.

End Chunker.

(** ** Exceptions and outcomes *)

Module Effects.

(** The exceptions the modelled code distinguishes.  [TimeoutException]
    stands for the remaining subclasses of [httpx.TimeoutException];
    [RaiseNone] is the [TypeError] of [raise None]; [OtherError] is any
    exception no handler of the modelled code catches. *)
Inductive exn : Type :=
| HTTPStatusError (status_code : Z)
| ConnectError
| ReadTimeout
| WriteTimeout
| PoolTimeout
| TimeoutException
| BadRequestError (message : string)
| RaiseNone
| OtherError (description : string).

Inductive outcome (T : Type) : Type :=
| Returned (v : T)
| Raised (e : exn)
| OutOfFuel.
Arguments Returned {T} v.
Arguments Raised {T} e.
Arguments OutOfFuel {T}.

(** Computations over a world [W] that either return, raise or run out of
    fuel. *)
Definition M (W T : Type) : Type := W -> outcome T * W.

Definition ret {W T} (v : T) : M W T := fun w => (Returned v, w).
Definition raise {W T} (e : exn) : M W T := fun w => (Raised e, w).
Definition bind {W A B} (m : M W A) (k : A -> M W B) : M W B :=
  fun w =>
    match m w with
    | (Returned a, w') => k a w'
    | (Raised e, w') => (Raised e, w')
    | (OutOfFuel, w') => (OutOfFuel, w')
    end.

End Effects.
Import Effects.

Declare Scope py_scope.
Delimit Scope py_scope with py.
Notation "'let!' x ':=' m 'in' k" := (bind m (fun x => k))
  (at level 10, x name, m at level 100, k at level 200) : py_scope.
Notation "'do!' m 'in' k" := (bind m (fun _ => k))
  (at level 10, m at level 100, k at level 200) : py_scope.

(** ** The retry policy ([courtlistener.py], [retry_with_backoff]) *)

Module Retry.

(** [range(n)] *)
Definition py_range (n : Z) : list Z := map Z.of_nat (seq 0 (Z.to_nat n)).

Definition pow2 (attempt : Z) : Qc := Qc_of_Z (2 ^ attempt).

(** The two [except] clauses: [Some delay] when the exception is caught
    and the loop goes on, [None] when it leaves the function (the bare
    [raise] of the last [else], or an exception no clause matches). *)
Definition handle (base_delay max_delay : Qc) (attempt : Z) (e : exn) : option Qc :=
  match e with
  | HTTPStatusError status_code =>
      if status_code =? 429 then
        Some (py_min (base_delay * pow2 attempt * 2)%Qc max_delay)
      else if status_code =? 400 then
        Some (py_min (base_delay * pow2 attempt)%Qc max_delay)
      else if status_code >=? 500 then
        Some (py_min (base_delay * pow2 attempt)%Qc max_delay)
      else None
  | ConnectError | ReadTimeout | WriteTimeout | PoolTimeout | TimeoutException =>
      Some (py_min (base_delay * pow2 attempt)%Qc max_delay)
  | _ => None
  end.

Section Policy.
Context {W T : Type}.
(** [time.sleep] *)
Variable sleep : Qc -> W -> W.
(** The wrapped zero-argument operation. *)
Variable fn : M W T.

(** The body of [for attempt in range(max_retries + 1)], followed by the
    final [raise last_exception]. *)
Fixpoint retry_loop (max_retries : Z) (base_delay max_delay : Qc)
    (attempts : list Z) (last_exception : option exn) (w : W) : outcome T * W :=
  match attempts with
  | [] =>
      match last_exception with
      | Some e => (Raised e, w)
      | None => (Raised RaiseNone, w)
      end
  | attempt :: rest =>
      match fn w with
      | (Returned v, w1) => (Returned v, w1)
      | (OutOfFuel, w1) => (OutOfFuel, w1)
      | (Raised e, w1) =>
          match handle base_delay max_delay attempt e with
          | None => (Raised e, w1)
          | Some delay =>
              let w2 := if attempt <? max_retries then sleep delay w1 else w1 in
              retry_loop max_retries base_delay max_delay rest (Some e) w2
          end
      end
  end.

Definition retry_with_backoff (max_retries : Z) (base_delay max_delay : Qc) : M W T :=
  retry_loop max_retries base_delay max_delay (py_range (max_retries + 1)) None.

(** The call with every default: [max_retries=3], [base_delay=1.0],
    [max_delay=30.0]. *)
Definition retry_with_backoff_default : M W T :=
  retry_with_backoff 3 (Qc_of_Z 1) (Qc_of_Z 30).

End Policy.

(** An instrumented operation, as a test double would be: the trace
    records every invocation and every sleep, and the outcome of the
    [i]-th invocation (from 0) is [script i]. *)
Inductive probe : Type :=
| Invoked
| Slept (delay : Qc).

Definition is_invoked (p : probe) : bool :=
  match p with Invoked => true | Slept _ => false end.

Definition invocations (tr : list probe) : nat :=
  length (List.filter is_invoked tr).

Definition slept (tr : list probe) : list Qc :=
  omap (fun p => match p with Slept d => Some d | Invoked => None end) tr.

Definition scripted {T} (script : nat -> outcome T) : M (list probe) T :=
  fun tr => (script (invocations tr), tr ++ [Invoked]).

Definition record_sleep (d : Qc) (tr : list probe) : list probe := tr ++ [Slept d].

End Retry.

(** ** Strings as the code uses them *)

Module PyStr.
Local Open Scope string_scope.

(** Truthiness of an [Optional[str]]: neither [None] nor empty. *)
Definition truthy (o : option string) : bool :=
  match o with
  | Some s => negb (String.eqb s "")
  | None => false
  end.

(** [sub in s] *)
Definition contains (sub s : string) : bool :=
  match String.index 0 sub s with
  | Some _ => true
  | None => false
  end.

(** [str.lower] and [str.strip] on the ASCII range (characters are
    modelled as [ascii]). *)
Definition lower_char (c : ascii) : ascii :=
  let n := nat_of_ascii c in
  if (Nat.leb 65 n && Nat.leb n 90)%bool then ascii_of_nat (n + 32) else c.

Fixpoint lower (s : string) : string :=
  match s with
  | EmptyString => EmptyString
  | String c s' => String (lower_char c) (lower s')
  end.

Definition is_space (c : ascii) : bool :=
  let n := nat_of_ascii c in
  ((Nat.leb 9 n && Nat.leb n 13) || (Nat.leb 28 n && Nat.leb n 32))%bool.

Fixpoint lstrip (s : string) : string :=
  match s with
  | EmptyString => EmptyString
  | String c s' => if is_space c then lstrip s' else s
  end.

Definition strip (s : string) : string :=
  let r := string_of_list_ascii (rev (list_ascii_of_string (lstrip s))) in
  string_of_list_ascii (rev (list_ascii_of_string (lstrip r))).

(** [str(n)] for an [int]. *)
Definition str_int (n : Z) : string := NilZero.string_of_int (Z.to_int n).

End PyStr.

(** ** Data model ([models.py], [courtlistener.py], [evaluation.py]) *)

Module Citation.
Record t : Type := mk {
  raw_text : string;
  case_name : option string;
  volume : option string;
  reporter : option string;
  page : option string;
  year : option Z;
  court : option string;
  is_valid : option bool;
  courtlistener_id : option string;
  validation_error : option string;
  opinion_text : option string
}.

(** [Citation(raw_text=...)]: every other field takes its default. *)
Definition new (raw : string) : t :=
  mk raw None None None None None None None None None None.

Definition set_case_name (v : option string) (c : t) : t :=
  mk (raw_text c) v (volume c) (reporter c) (page c) (year c) (court c)
     (is_valid c) (courtlistener_id c) (validation_error c) (opinion_text c).
Definition set_is_valid (v : option bool) (c : t) : t :=
  mk (raw_text c) (case_name c) (volume c) (reporter c) (page c) (year c) (court c)
     v (courtlistener_id c) (validation_error c) (opinion_text c).
Definition set_courtlistener_id (v : option string) (c : t) : t :=
  mk (raw_text c) (case_name c) (volume c) (reporter c) (page c) (year c) (court c)
     (is_valid c) v (validation_error c) (opinion_text c).
Definition set_validation_error (v : option string) (c : t) : t :=
  mk (raw_text c) (case_name c) (volume c) (reporter c) (page c) (year c) (court c)
     (is_valid c) (courtlistener_id c) v (opinion_text c).
Definition set_opinion_text (v : option string) (c : t) : t :=
  mk (raw_text c) (case_name c) (volume c) (reporter c) (page c) (year c) (court c)
     (is_valid c) (courtlistener_id c) (validation_error c) v.
End Citation.

Module CacheEntry.
Record t : Type := mk {
  citation_key : string;
  is_valid : bool;
  courtlistener_id : option string;
  case_name : option string;
  opinion_text : option string;
  error : option string;
  timestamp : Qc
}.
End CacheEntry.

(** The JSON object stored under one key of [CitationCache._cache]. *)
Module CacheData.
Record t : Type := mk {
  is_valid : bool;
  courtlistener_id : option string;
  case_name : option string;
  opinion_text : option string;
  error : option string;
  timestamp : Qc;
  raw_text : string
}.
End CacheData.

(** What the lookup service answers (the keys the code reads).  [None]
    is an absent key; [other_keys] tells whether the object has keys the
    code never reads, which matters for its truthiness only. *)
Module Cluster.
Record t : Type := mk {
  id : option string;   (* [str()] of the value under "id" *)
  case_name : option string;
  sub_opinions : option (list string);
  html_with_citations : option string;
  plain_text : option string;
  other_keys : bool
}.

(** A [dict] is truthy when it has at least one key. *)
Definition nonempty (c : t) : bool :=
  (bool_decide (is_Some (id c)) || bool_decide (is_Some (case_name c))
   || bool_decide (is_Some (sub_opinions c))
   || bool_decide (is_Some (html_with_citations c))
   || bool_decide (is_Some (plain_text c)) || other_keys c)%bool.
End Cluster.

Module LookupMatch.
Record t : Type := mk {
  status : option Z;
  clusters : option (list Cluster.t)
}.
End LookupMatch.

Module OpinionData.
Record t : Type := mk {
  html_with_citations : option string;
  plain_text : option string
}.
End OpinionData.

Module ExtractedCitation.
Record t : Type := mk {
  raw_text : string;
  citation_type : string;
  proposition : string
}.
End ExtractedCitation.

Module PropositionSupportResult.
Record t : Type := mk {
  supports_proposition : bool;
  confidence : string;
  reasoning : string;
  relevant_excerpt : option string
}.
Definition set_reasoning (v : string) (r : t) : t :=
  mk (supports_proposition r) (confidence r) v (relevant_excerpt r).
End PropositionSupportResult.

Module CitationEvaluation.
Record t : Type := mk {
  raw_text : string;
  citation_type : string;
  proposition : string;
  is_valid : option bool;
  courtlistener_id : option string;
  case_name : option string;
  validation_error : option string;
  supports_proposition : option bool;
  support_confidence : option string;
  support_reasoning : option string;
  relevant_excerpt : option string
}.
End CitationEvaluation.

Module ComplaintEvaluation.
Record t : Type := mk {
  complaint_file : string;
  scenario_id : option string;
  category : option string;
  model : option string;
  total_citations : Z;
  case_citations : Z;
  statute_citations : Z;
  valid_citations : Z;
  invalid_citations : Z;
  supported_propositions : Z;
  unsupported_propositions : Z;
  citations : gmap string CitationEvaluation.t
}.
End ComplaintEvaluation.

(** ** The world: the client's in-memory cache and the calls made *)

Module World.

Inductive event : Type :=
| EvLookup (text : string)           (* POST citation-lookup *)
| EvFetchOpinion (url : string)      (* GET of a sub-opinion *)
| EvSleep (delay : Qc)               (* [time.sleep] of the retry policy *)
| EvSupport (model citation proposition opinion : string)
| EvExtract (model text : string).

Definition is_network (e : event) : bool :=
  match e with
  | EvLookup _ | EvFetchOpinion _ => true
  | _ => false
  end.

Definition network_calls (l : list event) : nat := length (List.filter is_network l).

Record world : Type := mk {
  cache : gmap string CacheData.t;
  log : list event
}.

Definition emit (e : event) (w : world) : world := mk (cache w) (log w ++ [e]).

(** The collaborators.  Each answer may depend on everything that
    happened before ([log]). *)
Record Env : Type := {
  md5_hexdigest : string -> string;
  now : list event -> Qc;
  citation_lookup : list event -> string -> outcome (list LookupMatch.t);
  opinion_get : list event -> string -> outcome OpinionData.t;
  html_text_content : string -> outcome string;
  parse_support :
    list event -> string -> string -> string -> string ->
    outcome (option PropositionSupportResult.t);
  parse_extract :
    list event -> string -> string -> outcome (option (list ExtractedCitation.t))
}.

End World.
Import World.

(** ** The validation cache and the validator ([courtlistener.py]) *)

Module Validator.
Local Open Scope string_scope.

Section WithEnv.
Variable env : Env.

(** [CitationCache.make_key]: MD5 of the lowered, stripped raw text. *)
Definition make_key (raw_text : string) : string :=
  md5_hexdigest env (PyStr.strip (PyStr.lower raw_text)).

(** [CitationCache.get] *)
Definition cache_get (citation : Citation.t) (w : world) : option CacheEntry.t :=
  let key := make_key (Citation.raw_text citation) in
  match cache w !! key with
  | Some data =>
      Some (CacheEntry.mk key (CacheData.is_valid data)
              (CacheData.courtlistener_id data) (CacheData.case_name data)
              (CacheData.opinion_text data) (CacheData.error data)
              (CacheData.timestamp data))
  | None => None
  end.

(** [CitationCache.set] (the in-memory store; the rewrite of the backing
    file is not modelled). *)
Definition cache_set (citation : Citation.t) (is_valid : bool)
    (courtlistener_id case_name opinion_text error : option string)
    (w : world) : world :=
  let key := make_key (Citation.raw_text citation) in
  World.mk
    (<[key := CacheData.mk is_valid courtlistener_id case_name opinion_text error
                (now env (log w)) (Citation.raw_text citation)]> (cache w))
    (log w).

Definition sleep (d : Qc) (w : world) : world := emit (EvSleep d) w.

(** The closure [do_lookup] of [lookup_citation]: one POST (the
    minimum-interval gate before it only delays the call). *)
Definition do_lookup (raw_text : string) : M world (list LookupMatch.t) :=
  fun w => (citation_lookup env (log w) raw_text, emit (EvLookup raw_text) w).

(** The closure [fetch_opinion] of [_extract_opinion_text]: one GET. *)
Definition fetch_opinion (opinion_url : string) : M world OpinionData.t :=
  fun w => (opinion_get env (log w) opinion_url, emit (EvFetchOpinion opinion_url) w).

Definition text_content (markup : string) : M world (option string) :=
  fun w =>
    match html_text_content env markup with
    | Returned s => (Returned (Some s), w)
    | Raised e => (Raised e, w)
    | OutOfFuel => (OutOfFuel, w)
    end.

Definition _extract_opinion_text (cluster : Cluster.t) : M world (option string) :=
  match default [] (Cluster.sub_opinions cluster) with
  | opinion_url :: _ =>
      (let! opinion_data :=
         Retry.retry_with_backoff_default sleep (fetch_opinion opinion_url) in
       match OpinionData.html_with_citations opinion_data with
       | Some markup => text_content markup
       | None => ret (OpinionData.plain_text opinion_data)
       end)%py
  | [] =>
      match Cluster.html_with_citations cluster with
      | Some markup => text_content markup
      | None => ret (Cluster.plain_text cluster)
      end
  end.

Definition lookup_citation (raw_text : string) : M world (option Cluster.t) :=
  (let! results := Retry.retry_with_backoff_default sleep (do_lookup raw_text) in
   match results with
   | first_result :: _ =>
       if bool_decide (LookupMatch.status first_result = Some 200) then
         match default [] (LookupMatch.clusters first_result) with
         | cluster :: _ => ret (Some cluster)
         | [] => ret None
         end
       else ret None
   | [] => ret None
   end)%py.

(** [if cluster:] holds for a cluster that is neither [None] nor an empty
    object. *)
Definition truthy_cluster (cluster : option Cluster.t) : option Cluster.t :=
  match cluster with
  | Some c => if Cluster.nonempty c then Some c else None
  | None => None
  end.

(** [validate_citation].  The citation is an object mutated in place, so
    it is threaded as state: the second component is the object after the
    call, also when the call raises; on a normal return Python hands back
    that same object. *)
Definition validate_citation (citation : Citation.t) (w : world)
    : outcome unit * Citation.t * world :=
  match cache_get citation w with
  | Some cached =>
      let c1 := Citation.set_is_valid (Some (CacheEntry.is_valid cached)) citation in
      let c2 := Citation.set_courtlistener_id (CacheEntry.courtlistener_id cached) c1 in
      let c3 := Citation.set_opinion_text (CacheEntry.opinion_text cached) c2 in
      let c4 := if PyStr.truthy (CacheEntry.case_name cached)
                then Citation.set_case_name (CacheEntry.case_name cached) c3 else c3 in
      let c5 := if PyStr.truthy (CacheEntry.error cached)
                then Citation.set_validation_error (CacheEntry.error cached) c4 else c4 in
      (Returned tt, c5, w)
  | None =>
      match lookup_citation (Citation.raw_text citation) w with
      | (Raised e, w1) => (Raised e, citation, w1)
      | (OutOfFuel, w1) => (OutOfFuel, citation, w1)
      | (Returned cluster, w1) =>
          match truthy_cluster cluster with
          | Some cluster =>
              let c1 := Citation.set_is_valid (Some true) citation in
              let c2 := Citation.set_courtlistener_id
                          (Some (default "" (Cluster.id cluster))) c1 in
              let c3 := if (negb (PyStr.truthy (Citation.case_name c2))
                            && PyStr.truthy (Cluster.case_name cluster))%bool
                        then Citation.set_case_name (Cluster.case_name cluster) c2
                        else c2 in
              match _extract_opinion_text cluster w1 with
              | (Raised e, w2) => (Raised e, c3, w2)
              | (OutOfFuel, w2) => (OutOfFuel, c3, w2)
              | (Returned opinion_text, w2) =>
                  let c4 := Citation.set_opinion_text opinion_text c3 in
                  (Returned tt, c4,
                   cache_set c4 true (Citation.courtlistener_id c4)
                     (Citation.case_name c4) opinion_text None w2)
              end
          | None =>
              let c1 := Citation.set_is_valid (Some false) citation in
              let c2 := Citation.set_validation_error
                          (Some "Citation not found in CourtListener") c1 in
              (Returned tt, c2, cache_set c2 false None None None (Some "Not found") w1)
          end
      end
  end.

(** The guard of [validate_citations]:
    [citation.court == "STATUTE" or citation.is_valid is not None]. *)
Definition skipped (citation : Citation.t) : bool :=
  (bool_decide (Citation.court citation = Some "STATUTE")
   || bool_decide (is_Some (Citation.is_valid citation)))%bool.

(** [validate_citations]; the list holds the objects after the call. *)
Fixpoint validate_citations (citations : list Citation.t) (w : world)
    : outcome unit * list Citation.t * world :=
  match citations with
  | [] => (Returned tt, [], w)
  | citation :: rest =>
      if skipped citation then
        let '(o, rest', w') := validate_citations rest w in
        (o, citation :: rest', w')
      else
        match validate_citation citation w with
        | (Returned _, citation', w1) =>
            let '(o, rest', w') := validate_citations rest w1 in
            (o, citation' :: rest', w')
        | (o, citation', w1) => (o, citation' :: rest, w1)
        end
  end.

End WithEnv.

End Validator.

(** ** Proposition support and the orchestrator ([evaluation.py]) *)

Module Evaluation.
Local Open Scope string_scope.
Local Open Scope list_scope.
Local Open Scope Z_scope.

Module PSR := PropositionSupportResult.
Module CE := ComplaintEvaluation.

(** [confidence_order.get(r.confidence, 3)] *)
Definition confidence_rank (confidence : string) : Z :=
  if String.eqb confidence "high" then 0
  else if String.eqb confidence "medium" then 1
  else if String.eqb confidence "low" then 2
  else 3.

(** [list.sort(key=...)] is stable: equal keys keep their order.  The
    stable ordering of a list by a key is unique, so insertion from the
    right is as good a model as any. *)
Fixpoint insert_by {A} (key : A -> Z) (x : A) (l : list A) : list A :=
  match l with
  | [] => [x]
  | y :: l' => if key x <=? key y then x :: l else y :: insert_by key x l'
  end.

Definition sort_by {A} (key : A -> Z) (l : list A) : list A :=
  foldr (insert_by key) [] l.

(** The test on [str(e).lower()] that recognises a too-large request. *)
Definition is_too_large (message : string) : bool :=
  let error_msg := PyStr.lower message in
  negb (negb (PyStr.contains "token" error_msg)
        && negb (PyStr.contains "length" error_msg)
        && negb (PyStr.contains "context" error_msg))%bool.

Definition failed_result (reasoning : string) : PSR.t :=
  PSR.mk false "low" reasoning None.

Section WithEnv.
Variable env : Env.

(** [extract_citations_with_llm] ([citations.py]) *)
Definition extract_citations_with_llm (text model : string)
    : M world (list ExtractedCitation.t) :=
  fun w =>
    let w' := emit (EvExtract model text) w in
    match parse_extract env (log w) model text with
    | Returned (Some citations) => (Returned citations, w')
    | Returned None => (Returned [], w')
    | Raised e => (Raised e, w')
    | OutOfFuel => (OutOfFuel, w')
    end.

Definition _evaluate_single_chunk (citation proposition opinion_chunk model : string)
    : M world PSR.t :=
  fun w =>
    let w' := emit (EvSupport model citation proposition opinion_chunk) w in
    match parse_support env (log w) model citation proposition opinion_chunk with
    | Returned (Some result) => (Returned result, w')
    | Returned None => (Returned (failed_result "Failed to evaluate proposition support"), w')
    | Raised e => (Raised e, w')
    | OutOfFuel => (OutOfFuel, w')
    end.

(** The [for i, chunk in enumerate(chunks)] loop of the fallback, with its
    [break] and its [continue]; it yields [best_supporting_result] and
    [all_results]. *)
Fixpoint chunk_results (citation proposition model : string) (chunks : list string)
    (best_supporting_result : option PSR.t) (all_results : list PSR.t) (w : world)
    : outcome (option PSR.t * list PSR.t) * world :=
  match chunks with
  | [] => (Returned (best_supporting_result, all_results), w)
  | chunk :: rest =>
      match _evaluate_single_chunk citation proposition chunk model w with
      | (Returned result, w1) =>
          let all_results' := all_results ++ [result] in
          if PSR.supports_proposition result then
            if match best_supporting_result with
               | None => true
               | Some best =>
                   (String.eqb (PSR.confidence result) "high"
                    && negb (String.eqb (PSR.confidence best) "high"))%bool
               end
            then
              if String.eqb (PSR.confidence result) "high"
              then (Returned (Some result, all_results'), w1)
              else chunk_results citation proposition model rest (Some result) all_results' w1
            else chunk_results citation proposition model rest
                   best_supporting_result all_results' w1
          else chunk_results citation proposition model rest
                 best_supporting_result all_results' w1
      | (Raised (BadRequestError _), w1) =>
          chunk_results citation proposition model rest
            best_supporting_result all_results w1
      | (Raised e, w1) => (Raised e, w1)
      | (OutOfFuel, w1) => (OutOfFuel, w1)
      end
  end.

(** [_chunk_text(opinion_text)] with its defaults, on the characters of
    the opinion; the fuel given is enough (see [SupportFacts.default_chunks_total]). *)
Definition default_chunks (opinion_text : string) : option (list string) :=
  let chars := list_ascii_of_string opinion_text in
  fmap (M := option) (fmap (M := list) string_of_list_ascii)
    (Chunker._chunk_text (S (length chars)) chars 20000 500).

(** What follows the loop. *)
Definition select_result (n_chunks : Z) (best_supporting_result : option PSR.t)
    (all_results : list PSR.t) : PSR.t :=
  match best_supporting_result with
  | Some best => PSR.set_reasoning ("[Evaluated in chunks] " +:+ PSR.reasoning best) best
  | None =>
      match sort_by (fun r => confidence_rank (PSR.confidence r)) all_results with
      | result :: _ =>
          PSR.set_reasoning
            ("[Evaluated in " +:+ PyStr.str_int n_chunks +:+ " chunks] " +:+ PSR.reasoning result)
            result
      | [] => failed_result "Failed to evaluate proposition support (all chunks failed)"
      end
  end.

(** The [except BadRequestError] handler of [evaluate_proposition_support]
    once the error is recognised as too large. *)
Definition chunked_fallback (citation proposition opinion_text model : string)
    : M world PSR.t :=
  fun w =>
    match default_chunks opinion_text with
    | None => (OutOfFuel, w)
    | Some chunks =>
        match chunk_results citation proposition model chunks None [] w with
        | (Returned (best_supporting_result, all_results), w') =>
            (Returned (select_result (py_len chunks) best_supporting_result all_results), w')
        | (Raised e, w') => (Raised e, w')
        | (OutOfFuel, w') => (OutOfFuel, w')
        end
    end.

Definition evaluate_proposition_support (citation proposition opinion_text model : string)
    : M world PSR.t :=
  fun w =>
    match _evaluate_single_chunk citation proposition opinion_text model w with
    | (Raised (BadRequestError message), w1) =>
        if is_too_large message
        then chunked_fallback citation proposition opinion_text model w1
        else (Raised (BadRequestError message), w1)
    | r => r
    end.

(** *** [evaluate_complaint] *)

Definition bump (statute case valid invalid supported unsupported : Z) (ev : CE.t) : CE.t :=
  CE.mk (CE.complaint_file ev) (CE.scenario_id ev) (CE.category ev) (CE.model ev)
    (CE.total_citations ev)
    (CE.case_citations ev + case) (CE.statute_citations ev + statute)
    (CE.valid_citations ev + valid) (CE.invalid_citations ev + invalid)
    (CE.supported_propositions ev + supported)
    (CE.unsupported_propositions ev + unsupported)
    (CE.citations ev).

Definition set_total (n : Z) (ev : CE.t) : CE.t :=
  CE.mk (CE.complaint_file ev) (CE.scenario_id ev) (CE.category ev) (CE.model ev)
    n (CE.case_citations ev) (CE.statute_citations ev)
    (CE.valid_citations ev) (CE.invalid_citations ev)
    (CE.supported_propositions ev) (CE.unsupported_propositions ev)
    (CE.citations ev).

Definition put_citation (key : string) (cit_eval : CitationEvaluation.t) (ev : CE.t) : CE.t :=
  CE.mk (CE.complaint_file ev) (CE.scenario_id ev) (CE.category ev) (CE.model ev)
    (CE.total_citations ev) (CE.case_citations ev) (CE.statute_citations ev)
    (CE.valid_citations ev) (CE.invalid_citations ev)
    (CE.supported_propositions ev) (CE.unsupported_propositions ev)
    (<[key := cit_eval]> (CE.citations ev)).

(** [f"{cit.raw_text} ({counter})"] *)
Definition suffixed (raw_text : string) (counter : Z) : string :=
  raw_text +:+ " (" +:+ PyStr.str_int counter +:+ ")".

(** The [while key in evaluation.citations] loop. *)
Fixpoint key_loop (fuel : nat) (citations : gmap string CitationEvaluation.t)
    (raw_text : string) (key : string) (counter : Z) : option string :=
  match fuel with
  | O => None
  | S fuel' =>
      if bool_decide (is_Some (citations !! key))
      then key_loop fuel' citations raw_text (suffixed raw_text counter) (counter + 1)
      else Some key
  end.

(** [key = cit.raw_text; counter = 1; while ...]; a mapping of [n] keys
    is left after at most [n] rounds (see [KeyFacts.unique_key_total]). *)
Definition unique_key (citations : gmap string CitationEvaluation.t) (raw_text : string)
    : option string :=
  key_loop (S (size citations)) citations raw_text raw_text 1.

Definition store (cit : ExtractedCitation.t) (cit_eval : CitationEvaluation.t) (ev : CE.t)
    : M world CE.t :=
  fun w =>
    match unique_key (CE.citations ev) (ExtractedCitation.raw_text cit) with
    | Some key => (Returned (put_citation key cit_eval ev), w)
    | None => (OutOfFuel, w)
    end.

(** One round of [for cit in citations]. *)
Definition evaluate_citation (evaluation_model : string) (cit : ExtractedCitation.t)
    (ev : CE.t) : M world CE.t :=
  let raw := ExtractedCitation.raw_text cit in
  let cit_eval validated support :=
    CitationEvaluation.mk raw (ExtractedCitation.citation_type cit)
      (ExtractedCitation.proposition cit)
      (validated ≫= Citation.is_valid)
      (validated ≫= Citation.courtlistener_id)
      (validated ≫= Citation.case_name)
      (validated ≫= Citation.validation_error)
      (PSR.supports_proposition <$> support)
      (PSR.confidence <$> support)
      (PSR.reasoning <$> support)
      (support ≫= PSR.relevant_excerpt) in
  if String.eqb (ExtractedCitation.citation_type cit) "statute" then
    store cit (cit_eval None None) (bump 1 0 0 0 0 0 ev)
  else
    fun w =>
      let ev1 := bump 0 1 0 0 0 0 ev in
      match Validator.validate_citation env (Citation.new raw) w with
      | (Raised e, _, w1) => (Raised e, w1)
      | (OutOfFuel, _, w1) => (OutOfFuel, w1)
      | (Returned _, validated, w1) =>
          if bool_decide (Citation.is_valid validated = Some true) then
            let ev2 := bump 0 0 1 0 0 0 ev1 in
            if PyStr.truthy (Citation.opinion_text validated) then
              match evaluate_proposition_support raw (ExtractedCitation.proposition cit)
                      (default "" (Citation.opinion_text validated)) evaluation_model w1 with
              | (Raised e, w2) => (Raised e, w2)
              | (OutOfFuel, w2) => (OutOfFuel, w2)
              | (Returned support_result, w2) =>
                  let ev3 := if PSR.supports_proposition support_result
                             then bump 0 0 0 0 1 0 ev2 else bump 0 0 0 0 0 1 ev2 in
                  store cit (cit_eval (Some validated) (Some support_result)) ev3 w2
              end
            else store cit (cit_eval (Some validated) None) ev2 w1
          else
            store cit (cit_eval (Some validated) None) (bump 0 0 0 1 0 0 ev1) w1
      end.

Fixpoint evaluate_citations (evaluation_model : string)
    (citations : list ExtractedCitation.t) (ev : CE.t) : M world CE.t :=
  match citations with
  | [] => ret ev
  | cit :: rest =>
      (let! ev' := evaluate_citation evaluation_model cit ev in
       evaluate_citations evaluation_model rest ev')%py
  end.

(** [evaluate_complaint]: the file is given by its name and text, the
    sidecar metadata by its mapping (empty when there is no sidecar). *)
Definition evaluate_complaint (complaint_name complaint_text : string)
    (metadata : gmap string string) (extraction_model evaluation_model : string)
    : M world CE.t :=
  let evaluation :=
    CE.mk complaint_name (metadata !! "scenario_id") (metadata !! "category")
      (metadata !! "model") 0 0 0 0 0 0 0 ∅ in
  (let! citations := extract_citations_with_llm complaint_text extraction_model in
   evaluate_citations evaluation_model citations
     (set_total (py_len citations) evaluation))%py.

End WithEnv.

End Evaluation.

(** ** A test environment

    The end-to-end scenario of the specification: the lookup service knows
    one case, "Smith v. Jones, 123 F.3d 456" (id 77); the digest is
    replaced by the identity; the support evaluator rejects an opinion of
    more than 20000 characters as too large, supports the proposition
    "Defendants owe a duty of care." with high confidence, and rejects any
    other proposition, with low confidence on a full window and high
    confidence on a shorter one. *)

Module Fixture.
Local Open Scope string_scope.

Definition found_cluster : Cluster.t :=
  Cluster.mk (Some "77") (Some "Smith v. Jones") None None
    (Some "The court held defendants owed a duty...") false.

Definition support (opinion proposition : string) : outcome (option PropositionSupportResult.t) :=
  if (20000 <? Z.of_nat (String.length opinion))%Z then
    Raised (BadRequestError "This model's maximum context length was exceeded")
  else if String.eqb proposition "Defendants owe a duty of care." then
    Returned (Some (PropositionSupportResult.mk true "high" "The opinion states the duty." None))
  else if (Z.of_nat (String.length opinion) =? 20000)%Z then
    Returned (Some (PropositionSupportResult.mk false "low" "Nothing on point here." None))
  else
    Returned (Some (PropositionSupportResult.mk false "high" "The opinion holds otherwise." None)).

Definition env (extracted : list ExtractedCitation.t) : Env := {|
  md5_hexdigest := fun s => s;
  now := fun _ => Qc_of_Z 0;
  citation_lookup := fun _ text =>
    if String.eqb text "Smith v. Jones, 123 F.3d 456"
    then Returned [LookupMatch.mk (Some 200) (Some [found_cluster])]
    else Returned [LookupMatch.mk (Some 404) None];
  opinion_get := fun _ _ => Raised (HTTPStatusError 404);
  html_text_content := fun markup => Returned markup;
  parse_support := fun _ _ _ proposition opinion => support opinion proposition;
  parse_extract := fun _ _ _ => Returned (Some extracted)
|}.

Definition empty_world : world := World.mk ∅ [].

End Fixture.

(** * Properties *)

(** ** Slices *)

Module PyFacts.

Lemma py_slice_nonneg {A} (l : list A) (i j : nat) :
  py_slice l (Z.of_nat i) (Z.of_nat j) = take (j - i) (drop i l).
Proof.
  unfold py_slice, slice_index, py_len.
  destruct (Z.ltb_spec (Z.of_nat i) 0) as [?|_]; [lia|].
  destruct (Z.ltb_spec (Z.of_nat j) 0) as [?|_]; [lia|].
  destruct (le_lt_dec (length l) i) as [Hi|Hi].
  - rewrite !drop_ge by lia. by rewrite !take_nil.
  - replace (Z.to_nat (Z.of_nat i `min` Z.of_nat (length l))) with i by lia.
    destruct (le_lt_dec (length l) j) as [Hj|Hj].
    + rewrite !take_ge; [done | rewrite length_drop; lia ..].
    + f_equal. lia.
Qed.

Lemma py_slice_from_nonneg {A} (l : list A) (i : nat) :
  py_slice_from l (Z.of_nat i) = drop i l.
Proof.
  unfold py_slice_from, slice_index, py_len.
  destruct (Z.ltb_spec (Z.of_nat i) 0) as [?|_]; [lia|].
  destruct (le_lt_dec (length l) i) as [Hi|Hi].
  - rewrite !drop_ge; [done | lia ..].
  - f_equal. lia.
Qed.

End PyFacts.

(** ** The primitives on concrete inputs *)

Module Examples.
Import Evaluation.
Local Open Scope string_scope.

Example slice_clamps : py_slice [1; 2; 3; 4; 5] 2 6 = [3; 4; 5].
Proof. reflexivity. Qed.

Example slice_negative : py_slice [1; 2; 3; 4; 5] (-2) 5 = [4; 5].
Proof. reflexivity. Qed.

Example slice_from_short : py_slice_from [1] 2 = [].
Proof. reflexivity. Qed.

Example min_keeps_first_on_tie : py_min (Qc_of_Z 30) (Qc_of_Z 30) = Qc_of_Z 30.
Proof. reflexivity. Qed.

Example lower_strip : PyStr.strip (PyStr.lower "  576 U.S. 644 ") = "576 u.s. 644".
Proof. reflexivity. Qed.

Example contains_yes : PyStr.contains "token" "too many tokens" = true.
Proof. reflexivity. Qed.

Example contains_no : PyStr.contains "token" "tok en" = false.
Proof. reflexivity. Qed.

Example too_large_message :
  is_too_large "Maximum CONTEXT window exceeded" = true
  /\ is_too_large "Invalid schema" = false.
Proof. split; reflexivity. Qed.

Example str_int_12 : PyStr.str_int 12 = "12".
Proof. reflexivity. Qed.

Example suffixed_1 : suffixed "576 U.S. 644" 1 = "576 U.S. 644 (1)".
Proof. reflexivity. Qed.

Example ranks :
  map confidence_rank ["high"; "medium"; "low"; "unsure"] = [0; 1; 2; 3]%Z.
Proof. reflexivity. Qed.

(** The sort is stable: of two results of equal rank the earlier stays
    first. *)
Example sort_is_stable :
  sort_by (fun p : string * Z => p.2) [("a", 2); ("b", 0); ("c", 2); ("d", 0)]%Z
  = [("b", 0); ("d", 0); ("a", 2); ("c", 2)]%Z.
Proof. reflexivity. Qed.

Example range_4 : Retry.py_range 4 = [0; 1; 2; 3]%Z.
Proof. reflexivity. Qed.

Example range_negative : Retry.py_range (-1) = [].
Proof. reflexivity. Qed.

Example chunk_short_text :
  Chunker._chunk_text 1 [1; 2; 3] 3 1 = Some [[1; 2; 3]].
Proof. reflexivity. Qed.

Example chunk_sliding :
  Chunker._chunk_text 9 [1; 2; 3; 4; 5; 6; 7; 8] 4 1
  = Some [[1; 2; 3; 4]; [4; 5; 6; 7]; [7; 8]].
Proof. reflexivity. Qed.

End Examples.

(** ** The chunker *)

Module ChunkerFacts.
Import Chunker PyFacts.

Section Windows.
Context {A : Type}.
Implicit Types (text : list A) (size overlap : nat).

Lemma window_count_spec len size overlap k :
  (overlap < size)%nat ->
  (k < window_count len size overlap)%nat <-> (k * (size - overlap) < len)%nat.
Proof.
  intros Hlt. unfold window_count.
  set (d := (size - overlap)%nat). assert (Hd : (0 < d)%nat) by (unfold d; lia).
  split.
  - intros Hk.
    assert ((d * ((len + d - 1) / d) <= len + d - 1)%nat) by (apply Nat.Div0.mul_div_le).
    nia.
  - intros Hk.
    assert ((S k <= (len + d - 1) / d)%nat); [|lia].
    apply Nat.div_le_lower_bound; nia.
Qed.

(** With [0 <= overlap < size] the loop started at the [k]-th window start
    appends exactly the remaining windows. *)
Lemma chunk_loop_windows text size overlap :
  (overlap < size)%nat ->
  forall fuel k acc,
    (k <= window_count (length text) size overlap)%nat ->
    (window_count (length text) size overlap - k < fuel)%nat ->
    chunk_loop fuel text (Z.of_nat size) (Z.of_nat overlap)
      (Z.of_nat (k * (size - overlap))) acc
    = Some (acc ++ map (window text size overlap)
                     (seq k (window_count (length text) size overlap - k))).
Proof.
  intros Hlt. induction fuel as [|fuel IH]; intros k acc Hk Hfuel; [lia|].
  simpl. unfold py_len.
  destruct (Z.ltb_spec (Z.of_nat (k * (size - overlap))) (Z.of_nat (length text)))
    as [Hin|Hout].
  - assert (Hk' : (k < window_count (length text) size overlap)%nat)
      by (apply window_count_spec; lia).
    replace (Z.of_nat (k * (size - overlap)) + Z.of_nat size - Z.of_nat overlap)
      with (Z.of_nat (S k * (size - overlap))) by lia.
    rewrite IH by lia.
    replace (Z.of_nat (k * (size - overlap)) + Z.of_nat size)
      with (Z.of_nat (k * (size - overlap) + size)) by lia.
    rewrite py_slice_nonneg.
    replace (k * (size - overlap) + size - k * (size - overlap))%nat with size by lia.
    replace (window_count (length text) size overlap - k)%nat
      with (S (window_count (length text) size overlap - S k)) by lia.
    simpl. by rewrite <- app_assoc.
  - assert (Hk' : ~ (k < window_count (length text) size overlap)%nat)
      by (rewrite window_count_spec by done; lia).
    replace (window_count (length text) size overlap - k)%nat with 0%nat by lia.
    simpl. by rewrite app_nil_r.
Qed.

Lemma window_count_le_length len size overlap :
  (overlap < size)%nat -> (window_count len size overlap <= len)%nat.
Proof.
  intros Hlt.
  destruct (le_lt_dec (window_count len size overlap) len) as [|Hgt]; [done|].
  apply window_count_spec in Hgt; [nia|done].
Qed.

(** The chunker on a text longer than the chunk size. *)
Lemma chunk_text_windows text size overlap fuel :
  (overlap < size)%nat -> (size < length text)%nat -> (length text < fuel)%nat ->
  _chunk_text fuel text (Z.of_nat size) (Z.of_nat overlap)
  = Some (windows text size overlap).
Proof.
  intros Hlt Hlong Hfuel. unfold _chunk_text, py_len.
  destruct (Z.leb_spec (Z.of_nat (length text)) (Z.of_nat size)); [lia|].
  pose proof (window_count_le_length (length text) size overlap Hlt).
  pose proof (chunk_loop_windows text size overlap Hlt fuel 0 []) as H'.
  rewrite Nat.mul_0_l in H'. change (Z.of_nat 0) with 0 in H'.
  rewrite H' by lia. unfold windows. by rewrite Nat.sub_0_r.
Qed.

(** Dropping the overlap from a later window leaves the stretch of text
    that follows the previous window's nominal end. *)
Lemma drop_overlap_window text size overlap k :
  (overlap < size)%nat ->
  drop overlap (window text size overlap (S k))
  = take (size - overlap) (drop (size + k * (size - overlap)) text).
Proof.
  intros Hlt. unfold window.
  transitivity (take (size - overlap) (drop overlap (drop (S k * (size - overlap)) text))).
  - rewrite (take_drop_commute _ (size - overlap) overlap). f_equal. f_equal. lia.
  - rewrite drop_drop. f_equal. f_equal. simpl. lia.
Qed.

Lemma concat_strides text a d n :
  concat (map (fun k => take d (drop (a + k * d) text)) (seq 0 n))
  = take (n * d) (drop a text).
Proof.
  induction n as [|n IH]; [done|].
  rewrite seq_S, map_app, concat_app, IH. simpl. rewrite app_nil_r.
  replace (d + n * d)%nat with (n * d + d)%nat by lia.
  rewrite <- take_take_drop, drop_drop. done.
Qed.

End Windows.

Definition chars (s : string) : list ascii := list_ascii_of_string s.

(** When the stride [chunk_size - overlap] is not positive, the start
    never passes the beginning of a non-empty text and the loop goes on
    for ever. *)
Lemma chunk_loop_stuck {A} (text : list A) (chunk_size overlap : Z) :
  chunk_size <= overlap -> 0 < py_len text ->
  forall fuel start acc,
    start <= 0 -> chunk_loop fuel text chunk_size overlap start acc = None.
Proof.
  intros Hstride Hne. induction fuel as [|fuel IH]; intros start acc Hstart; [done|].
  simpl. destruct (Z.ltb_spec start (py_len text)) as [_|?]; [|lia].
  apply IH. lia.
Qed.

(** The character "c" is in none of the chunks. *)
Definition misses_c (chunks : list (list ascii)) : Prop :=
  "c"%char ∉ concat chunks.

(** Two consecutive windows share [overlap] elements: the last [overlap]
    elements of the first are the first [overlap] elements of the second. *)
Definition shares {A} (overlap : nat) (w next : list A) : Prop :=
  (overlap <= length w)%nat /\ (overlap <= length next)%nat /\
  drop (length w - overlap) w = take overlap next.

(** A window of full length shares exactly [overlap] elements with its
    successor. *)
Lemma full_window_shares {A} (text : list A) size overlap k :
  (overlap < size)%nat ->
  length (window text size overlap k) = size ->
  (S k < window_count (length text) size overlap)%nat ->
  shares overlap (window text size overlap k) (window text size overlap (S k)).
Proof.
  intros Hlt Hfull Hsucc.
  apply window_count_spec in Hsucc; [|done].
  unfold shares. rewrite Hfull. unfold window in *.
  rewrite length_take, length_drop in *. simpl in Hsucc.
  split; [lia|]. split; [lia|].
  rewrite take_take, Nat.min_l by lia.
  transitivity (take overlap (drop (size - overlap) (drop (k * (size - overlap)) text))).
  - rewrite (take_drop_commute _ overlap (size - overlap)). f_equal. f_equal. lia.
  - rewrite drop_drop. f_equal. f_equal. simpl. lia.
Qed.

(** C2, at the failing input: with chunk size 4 and overlap 2 the text
    "abcde" yields the windows "abcd", "cde", "e".  The window "cde" has
    the successor "e" and does not share 2 characters with it (the
    successor is a single character inside it), whereas "abcd" and "cde"
    do share their 2 characters. *)
Theorem trailing_window_overlap_failing_input :
  _chunk_text 6 (chars "abcde") 4 2 = Some [chars "abcd"; chars "cde"; chars "e"] /\
  shares 2 (chars "abcd") (chars "cde") /\
  ~ shares 2 (chars "cde") (chars "e").
Proof.
  split; [reflexivity|]. split.
  - unfold shares. simpl. repeat split; lia.
  - intros (_ & Hlen & _). simpl in Hlen. lia.
Qed.

(** C3, as stated, fails: an overlap below the chunk size may be
    negative.  With chunk size 2 and overlap -1 the text "abcde" yields
    the chunks "ab" and "de", whatever the fuel: the windows leave a gap,
    the character "c" is in no chunk, and the first chunk followed by the
    later chunks cut at [overlap] (["de"[-1:]], that is "e") is not the
    text. *)
Lemma negative_overlap_counterexample :
  _chunk_text 6 (chars "abcde") 2 (-1) = Some [chars "ab"; chars "de"] /\
  (forall fuel chunks,
     _chunk_text fuel (chars "abcde") 2 (-1) = Some chunks ->
     chunks = [chars "ab"; chars "de"]) /\
  chars "ab" ++ concat (map (fun chunk => py_slice_from chunk (-1)) [chars "de"])
  = chars "abe" /\
  misses_c [chars "ab"; chars "de"].
Proof.
  split; [reflexivity|]. split; [|split; [reflexivity|]].
  - intros fuel chunks. destruct fuel as [|[|[|fuel]]]; [done..|].
    by intros [= <-].
  - unfold misses_c. apply (bool_decide_unpack _). vm_compute. exact I.
Qed.

(** C3, amended: for a text longer than the chunk size and an overlap
    that is a number of characters ([0 <= overlap]) below the chunk size,
    the chunker returns a non-empty sequence and the first chunk followed
    by every later chunk without its first [overlap] characters is the
    text. *)
Theorem chunks_reconstruct_text {A} (text : list A) (chunk_size overlap : Z) :
  chunk_size < py_len text ->
  0 <= overlap < chunk_size ->
  exists first rest,
    (forall fuel, (length text < fuel)%nat ->
       _chunk_text fuel text chunk_size overlap = Some (first :: rest)) /\
    first ++ concat (map (fun chunk => py_slice_from chunk overlap) rest) = text.
Proof.
  intros Hlong [Ho Hlt].
  rewrite <- (Z2Nat.id chunk_size) in * by lia.
  rewrite <- (Z2Nat.id overlap) in * by lia.
  set (size := Z.to_nat chunk_size) in *. set (o := Z.to_nat overlap) in *.
  unfold py_len in Hlong.
  assert (Hlt' : (o < size)%nat) by lia.
  assert (Hm : (0 < window_count (length text) size o)%nat)
    by (apply window_count_spec; [done | lia]).
  assert (Hcover : (length text <= window_count (length text) size o * (size - o))%nat).
  { pose proof (window_count_spec (length text) size o
                  (window_count (length text) size o) Hlt') as [_ H]. lia. }
  destruct (window_count (length text) size o) as [|m] eqn:Em; [lia|].
  exists (window text size o 0), (map (window text size o) (seq 1 m)).
  split.
  - intros fuel Hfuel. rewrite chunk_text_windows by lia.
    unfold windows. by rewrite Em.
  - rewrite <- fmap_S_seq, <- list_fmap_compose, map_map.
    erewrite map_ext; last first.
    { intros k. simpl. rewrite py_slice_from_nonneg.
      apply (drop_overlap_window text size o k Hlt'). }
    rewrite (concat_strides text size (size - o) m).
    unfold window. simpl. rewrite take_take_drop. apply take_ge. lia.
Qed.

Lemma chunks_reconstruct_text_witness :
  exists first rest,
    _chunk_text 6 (chars "abcde") 4 2 = Some (first :: rest) /\
    first ++ concat (map (fun chunk => py_slice_from chunk 2) rest) = chars "abcde".
Proof.
  destruct (chunks_reconstruct_text (chars "abcde") 4 2) as (first & rest & Hrun & Hcat).
  - unfold py_len. simpl. lia.
  - lia.
  - exists first, rest. split; [apply Hrun; simpl; lia | exact Hcat].
Defined.

(** C4, as stated, fails on both sides of [0 <= overlap < chunk_size].
    With an overlap equal to the chunk size ("abc", 2, 2) the window never
    advances and the loop yields no result, whatever the fuel.  With a
    negative overlap ("abc", 2, -1) the loop ends after the single window
    "ab": the next start is 3, and the trailing character "c" is in no
    window. *)
Lemma chunker_fails_counterexample :
  (~ exists fuel chunks, _chunk_text fuel (chars "abc") 2 2 = Some chunks) /\
  _chunk_text 4 (chars "abc") 2 (-1) = Some [chars "ab"] /\
  (forall fuel chunks,
     _chunk_text fuel (chars "abc") 2 (-1) = Some chunks -> chunks = [chars "ab"]) /\
  misses_c [chars "ab"] /\
  last (chars "abc") = Some "c"%char.
Proof.
  split; [|split; [reflexivity|split; [|split; [|reflexivity]]]].
  - intros (fuel & chunks & H). unfold _chunk_text in H.
    change (py_len (chars "abc") <=? 2) with false in H.
    rewrite chunk_loop_stuck in H; [done | lia | done | lia].
  - intros fuel chunks. destruct fuel as [|[|fuel]]; [done..|].
    by intros [= <-].
  - unfold misses_c. apply (bool_decide_unpack _). vm_compute. exact I.
Qed.

(** C4, amended: when the text is no longer than the chunk size, or the
    overlap is a number of characters ([0 <= overlap]) below the chunk
    size, the chunker terminates; every position of the text lies in a
    returned window that is a contiguous piece of the text; and the final
    window ends with the last character of a non-empty text. *)
Theorem chunker_total_and_covering {A} (text : list A) (chunk_size overlap : Z) :
  py_len text <= chunk_size \/ 0 <= overlap < chunk_size ->
  exists chunks,
    (forall fuel, (length text < fuel)%nat ->
       _chunk_text fuel text chunk_size overlap = Some chunks) /\
    (forall i x, text !! i = Some x ->
       exists k chunk off,
         chunks !! k = Some chunk /\
         chunk = take (length chunk) (drop off text) /\
         (off <= i)%nat /\ chunk !! (i - off)%nat = Some x) /\
    (text <> [] -> exists chunk, last chunks = Some chunk /\ last chunk = last text).
Proof.
  intros Hpre.
  destruct (Z.leb_spec (py_len text) chunk_size) as [Hshort|Hlong].
  { exists [text]. split; [|split].
    - intros fuel _. unfold _chunk_text.
      by destruct (Z.leb_spec (py_len text) chunk_size); [|lia].
    - intros i x Hi. exists 0%nat, text, 0%nat. simpl.
      rewrite drop_0, firstn_all, Nat.sub_0_r. repeat split; [lia | done].
    - intros _. by exists text. }
  destruct Hpre as [?|[Ho Hlt]]; [lia|].
  rewrite <- (Z2Nat.id chunk_size) in * by lia.
  rewrite <- (Z2Nat.id overlap) in * by lia.
  set (size := Z.to_nat chunk_size) in *. set (o := Z.to_nat overlap) in *.
  unfold py_len in Hlong.
  assert (Hlt' : (o < size)%nat) by lia.
  pose proof (window_count_spec (length text) size o) as Hspec.
  exists (windows text size o). split; [|split].
  - intros fuel Hfuel. apply chunk_text_windows; lia.
  - intros i x Hi. pose proof (lookup_lt_Some _ _ _ Hi) as Hilen.
    set (d := (size - o)%nat). assert (Hd : (0 < d)%nat) by (unfold d; lia).
    set (k := (i / d)%nat).
    assert (Hk1 : (k * d <= i)%nat) by (unfold k; pose proof (Nat.Div0.mul_div_le i d); lia).
    assert (Hk2 : (i < k * d + d)%nat).
    { unfold k. pose proof (Nat.mul_succ_div_gt i d). lia. }
    exists k, (window text size o k), (k * d)%nat. split; [|split; [|split]].
    + unfold windows. rewrite list_lookup_fmap, lookup_seq_lt; [done|].
      apply Hspec; [done|]. fold d. lia.
    + unfold window. fold d. rewrite length_take.
      destruct (Nat.min_spec size (length (drop (k * d) text))) as [[? ->]|[? ->]]; [done|].
      by rewrite !take_ge by lia.
    + done.
    + unfold window. fold d. rewrite lookup_take_lt by (unfold d in *; lia).
      rewrite lookup_drop. rewrite <- Hi. f_equal. lia.
  - intros Hne.
    assert (Hm : (0 < window_count (length text) size o)%nat)
      by (apply Hspec; [done | lia]).
    destruct (window_count (length text) size o) as [|m] eqn:Em; [lia|].
    assert (Hin : (m * (size - o) < length text)%nat) by (apply Hspec; [done | lia]).
    assert (Hend : (length text <= S m * (size - o))%nat).
    { pose proof (Hspec (S m) Hlt') as [_ H]. lia. }
    exists (window text size o m). split.
    + unfold windows. rewrite Em, seq_S, map_app. simpl. apply last_snoc.
    + unfold window. rewrite take_ge by (rewrite length_drop; simpl in Hend; lia).
      rewrite !last_lookup, lookup_drop, length_drop. f_equal. lia.
Qed.

Lemma chunker_total_and_covering_witness :
  exists chunks,
    _chunk_text 6 (chars "abcde") 4 2 = Some chunks /\
    (exists chunk, last chunks = Some chunk /\ last chunk = Some "e"%char).
Proof.
  destruct (chunker_total_and_covering (chars "abcde") 4 2) as (chunks & Hrun & _ & Hlast).
  - right. lia.
  - exists chunks. split; [apply Hrun; simpl; lia | by apply Hlast].
Defined.

End ChunkerFacts.

(** ** The retry policy *)

Module RetryFacts.
Import Retry.

(** The failures the policy retries: status 429, 400 or at least 500, and
    the connection-level failures. *)
Definition retryable (e : exn) : Prop :=
  match e with
  | HTTPStatusError s => s = 429 \/ s = 400 \/ 500 <= s
  | ConnectError | ReadTimeout | WriteTimeout | PoolTimeout | TimeoutException => True
  | _ => False
  end.

Definition rate_limited (e : exn) : bool :=
  match e with
  | HTTPStatusError s => bool_decide (s = 429)
  | _ => false
  end.

(** The backoff schedule of the specification:
    [min(base_delay * 2^attempt [* 2 when rate limited], max_delay)]. *)
Definition schedule (base_delay max_delay : Qc) (attempt : nat) (e : exn) : Qc :=
  if rate_limited e
  then py_min (base_delay * Qc_of_Z (2 ^ Z.of_nat attempt) * 2)%Qc max_delay
  else py_min (base_delay * Qc_of_Z (2 ^ Z.of_nat attempt))%Qc max_delay.

Section Scripted.
Context {T : Type}.
Variable script : nat -> outcome T.
Variables (max_retries : Z) (base_delay max_delay : Qc).

(** What the trace shows for a failed attempt that is retried: the
    invocation, then the sleep of the schedule. *)
Definition retried_attempt (k : nat) : list probe :=
  match script k with
  | Raised e => [Invoked; Slept (schedule base_delay max_delay k e)]
  | _ => [Invoked]
  end.

Definition retried (from n : nat) : list probe :=
  flat_map retried_attempt (seq from n).

Lemma handle_retryable k e :
  retryable e ->
  handle base_delay max_delay (Z.of_nat k) e = Some (schedule base_delay max_delay k e).
Proof.
  unfold schedule, rate_limited, handle, pow2.
  destruct e as [s| | | | | | | |]; simpl; try done.
  intros Hs. case_bool_decide as H429.
  - subst s. done.
  - destruct (Z.eqb_spec s 429); [done|].
    destruct (Z.eqb_spec s 400); [done|].
    rewrite Z.geb_leb. destruct (Z.leb_spec 500 s); [done | lia].
Qed.


Lemma invocations_app tr1 tr2 :
  invocations (tr1 ++ tr2) = (invocations tr1 + invocations tr2)%nat.
Proof. unfold invocations. by rewrite List.filter_app, length_app. Qed.

Local Abbreviation loop := (retry_loop record_sleep (scripted script) max_retries base_delay max_delay).





Lemma invocations_retried_attempt tr a :
  invocations (tr ++ retried_attempt a) = S (invocations tr).
Proof.
  rewrite invocations_app. unfold retried_attempt.
  destruct (script a); unfold invocations; simpl; lia.
Qed.


Lemma invocations_retried j :
  forall a tr, invocations (tr ++ retried a j) = (invocations tr + j)%nat.
Proof.
  induction j as [|j IH]; intros a tr.
  - unfold retried. simpl. rewrite app_nil_r. lia.
  - unfold retried in *. simpl. rewrite app_assoc, IH, invocations_retried_attempt. lia.
Qed.

Lemma slept_app tr1 tr2 : slept (tr1 ++ tr2) = slept tr1 ++ slept tr2.
Proof. apply omap_app. Qed.


End Scripted.


(** The operation of the specification's retry test: it fails twice with
    status 500, then succeeds. *)
Definition fails_twice (k : nat) : outcome string :=
  if (k <? 2)%nat then Raised (HTTPStatusError 500) else Returned "ok"%string.


(** The same run with the delays written out: 1 s, then 2 s. *)
Example fails_twice_delays :
  slept (snd (retry_with_backoff_default record_sleep (scripted fails_twice) []))
  = [Qc_of_Z 1; Qc_of_Z 2].
Proof. simpl. repeat f_equal; apply Qc_is_canon; vm_compute; reflexivity. Qed.

(** A 404 is not retried: one invocation, no sleep, the error propagates. *)
Example not_found_is_not_retried :
  retry_with_backoff_default record_sleep
    (scripted (fun _ => @Raised unit (HTTPStatusError 404))) []
  = (Raised (HTTPStatusError 404), [Invoked]).
Proof. reflexivity. Qed.

End RetryFacts.

(** ** The validator *)

Module ValidatorFacts.
Import Validator.
Local Open Scope string_scope.
Local Open Scope list_scope.
Local Open Scope Z_scope.

Section WithEnv.
Variable env : Env.

Lemma cache_get_Some citation w :
  is_Some (cache_get env citation w)
  <-> is_Some (cache w !! make_key env (Citation.raw_text citation)).
Proof.
  unfold cache_get. destruct (cache w !! _); split; intros [? ?]; by eauto.
Qed.

Lemma cache_set_lookup citation b i n o e w :
  is_Some (cache (cache_set env citation b i n o e w)
             !! make_key env (Citation.raw_text citation)).
Proof. unfold cache_set. simpl. rewrite lookup_insert_eq. eauto. Qed.

(** A cache hit answers without touching the world. *)
Lemma validate_citation_cached citation w :
  is_Some (cache_get env citation w) ->
  exists citation', validate_citation env citation w = (Returned tt, citation', w).
Proof.
  intros [cached Hc]. unfold validate_citation. rewrite Hc. eauto.
Qed.

(** What a normal return of [validate_citation] leaves behind. *)
Lemma validate_citation_returned citation w citation' w' :
  validate_citation env citation w = (Returned tt, citation', w') ->
  Citation.raw_text citation' = Citation.raw_text citation /\
  is_Some (Citation.is_valid citation') /\
  is_Some (cache w' !! make_key env (Citation.raw_text citation)).
Proof.
  unfold validate_citation.
  destruct (cache_get env citation w) as [cached|] eqn:Hget.
  - intros [= <- <-]. split; [|split].
    + by repeat case_match.
    + repeat case_match; simpl; eauto.
    + apply cache_get_Some. eauto.
  - destruct (lookup_citation env (Citation.raw_text citation) w)
      as [[found| |] w1]; [|done..].
    destruct (truthy_cluster found) as [cluster|].
    + destruct (_extract_opinion_text env cluster w1) as [[opinion| |] w2]; [|done..].
      intros [= <- <-]. split; [|split].
      * by case_match.
      * case_match; simpl; eauto.
      * match goal with
        | |- context [cache_set env ?c _ _ _ _ _ _] =>
            replace (Citation.raw_text citation) with (Citation.raw_text c)
              by (by case_match)
        end.
        apply cache_set_lookup.
    + intros [= <- <-]. split; [done|]. split; [simpl; eauto|].
      match goal with
      | |- context [cache_set env ?c _ _ _ _ _ _] => apply (cache_set_lookup c)
      end.
Qed.

Lemma validate_citations_length citations :
  forall w, length (validate_citations env citations w).1.2 = length citations.
Proof.
  induction citations as [|c rest IH]; intros w; [done|]. simpl.
  destruct (skipped c).
  - specialize (IH w). destruct (validate_citations env rest w) as [[o rest'] w'].
    simpl in *. by rewrite IH.
  - destruct (validate_citation env c w) as [[[[]| |] c'] w1]; simpl; try done.
    specialize (IH w1). destruct (validate_citations env rest w1) as [[o rest'] w'].
    simpl in *. by rewrite IH.
Qed.

(** A skipped citation changes nothing: the run is the run without it,
    with the citation put back at its place untouched. *)
Lemma validate_citations_skip pre c post :
  skipped c = true ->
  forall w,
    validate_citations env (pre ++ c :: post) w
    = let '(o, cs, w') := validate_citations env (pre ++ post) w in
      (o, take (length pre) cs ++ c :: drop (length pre) cs, w').
Proof.
  intros Hskip. induction pre as [|p pre IH]; intros w; simpl.
  - rewrite Hskip. by destruct (validate_citations env post w) as [[o cs] w'].
  - destruct (skipped p).
    + rewrite IH. by destruct (validate_citations env (pre ++ post) w) as [[o cs] w'].
    + destruct (validate_citation env p w) as [[[[]| |] p'] w1]; simpl.
      * rewrite IH. by destruct (validate_citations env (pre ++ post) w1) as [[o cs] w'].
      * by rewrite take_app_length, drop_app_length.
      * by rewrite take_app_length, drop_app_length.
Qed.

End WithEnv.

(** The lookup path guards the case name: a citation that reaches the
    lookup with a case name keeps it. *)
Lemma lookup_keeps_case_name env citation w o citation' w' :
  cache_get env citation w = None ->
  PyStr.truthy (Citation.case_name citation) = true ->
  validate_citation env citation w = (o, citation', w') ->
  Citation.case_name citation' = Citation.case_name citation.
Proof.
  intros Hmiss Hname. unfold validate_citation. rewrite Hmiss.
  destruct (lookup_citation env (Citation.raw_text citation) w)
    as [[found| |] w1]; [|by intros [= <- <- <-]..].
  destruct (truthy_cluster found) as [cluster|]; [|by intros [= <- <- <-]].
  simpl. rewrite Hname. simpl.
  by destruct (_extract_opinion_text env cluster w1) as [[opinion| |] w2];
    intros [= <- <- <-].
Qed.

(** C5, at the failing input: a citation that already carries the case
    name "Obergefell v. Hodges" and whose raw text has a cache entry with
    the case name "OBERGEFELL" comes back from [validate_citation] with
    the cached name: the cache path overwrites the name the citation had. *)
Theorem cached_name_overwrites_failing_input (env : Env) :
  let citation :=
    Citation.set_case_name (Some "Obergefell v. Hodges") (Citation.new "576 U.S. 644") in
  let w :=
    World.mk {[ make_key env "576 U.S. 644" :=
                  CacheData.mk true (Some "2812209") (Some "OBERGEFELL") None None
                    (Qc_of_Z 0) "576 U.S. 644" ]} [] in
  exists citation',
    validate_citation env citation w = (Returned tt, citation', w) /\
    Citation.case_name citation = Some "Obergefell v. Hodges" /\
    Citation.case_name citation' = Some "OBERGEFELL".
Proof.
  intros citation w. unfold validate_citation, cache_get. subst citation w. simpl.
  rewrite lookup_singleton_eq. simpl. eauto.
Qed.

(** C6: [validate_citations] skips a citation whose court is "STATUTE" or
    whose validity is resolved: the run is the run on the list without it
    (same outcome, same world, hence no lookup) and the citation is handed
    back unchanged.  And once [validate_citation] has returned for a
    citation, validating it again is served from the cache and leaves the
    world, with its log of network calls, as it was; through
    [validate_citations] it is skipped. *)
Theorem validation_at_most_once (env : Env) :
  (forall pre c post w,
     Citation.court c = Some "STATUTE" \/ is_Some (Citation.is_valid c) ->
     validate_citations env (pre ++ c :: post) w
     = let '(o, cs, w') := validate_citations env (pre ++ post) w in
       (o, take (length pre) cs ++ c :: drop (length pre) cs, w')) /\
  (forall c w c1 w1,
     validate_citation env c w = (Returned tt, c1, w1) ->
     is_Some (cache_get env c1 w1) /\
     (exists c2, validate_citation env c1 w1 = (Returned tt, c2, w1)) /\
     validate_citations env [c1] w1 = (Returned tt, [c1], w1)).
Proof.
  split.
  - intros pre c post w Hc. apply validate_citations_skip.
    unfold skipped. destruct Hc as [Hc|Hc].
    + by rewrite (bool_decide_eq_true_2 _ Hc).
    + rewrite (bool_decide_eq_true_2 _ Hc). apply orb_true_r.
  - intros c w c1 w1 Hrun.
    destruct (validate_citation_returned env c w c1 w1 Hrun) as (Hraw & Hvalid & Hcache).
    assert (Hhit : is_Some (cache_get env c1 w1)).
    { apply cache_get_Some. by rewrite Hraw. }
    split; [done|]. split; [by apply validate_citation_cached|].
    simpl. unfold skipped. rewrite (bool_decide_eq_true_2 _ Hvalid).
    by rewrite orb_true_r.
Qed.

Lemma validation_at_most_once_witness :
  let c := Citation.new "Smith v. Jones, 123 F.3d 456" in
  exists c1 w1 c2,
    validate_citation (Fixture.env []) c Fixture.empty_world = (Returned tt, c1, w1) /\
    network_calls (log w1) = 1%nat /\
    validate_citation (Fixture.env []) c1 w1 = (Returned tt, c2, w1) /\
    validate_citations (Fixture.env []) [c1] w1 = (Returned tt, [c1], w1).
Proof.
  intros c.
  assert (Hrun : exists c1 w1,
             validate_citation (Fixture.env []) c Fixture.empty_world = (Returned tt, c1, w1)
             /\ network_calls (log w1) = 1%nat).
  { eexists _, _. split; vm_compute; reflexivity. }
  destruct Hrun as (c1 & w1 & Hrun & Hcalls).
  destruct (validation_at_most_once (Fixture.env [])) as [_ Honce].
  destruct (Honce c Fixture.empty_world c1 w1 Hrun) as (_ & (c2 & Hagain) & Hskip).
  by exists c1, w1, c2.
Defined.

End ValidatorFacts.

(** ** Proposition support: the chunked fallback *)

Module SupportFacts.
Import Evaluation.
Local Open Scope string_scope.
Local Open Scope list_scope.
Local Open Scope Z_scope.

Section Sorting.
Context {A : Type} (key : A -> Z).

Lemma insert_by_perm x l : insert_by key x l ≡ₚ x :: l.
Proof.
  induction l as [|y l IH]; simpl; [done|].
  destruct (key x <=? key y); [done|].
  rewrite IH. apply Permutation_swap.
Qed.

Lemma sort_by_perm l : sort_by key l ≡ₚ l.
Proof.
  induction l as [|x l IH]; simpl; [done|].
  unfold sort_by in *. simpl. by rewrite insert_by_perm, IH.
Qed.

Definition key_le (a b : A) : Prop := key a <= key b.

Lemma insert_by_sorted x l :
  StronglySorted key_le l -> StronglySorted key_le (insert_by key x l).
Proof.
  induction 1 as [|y l Hsorted IH Hall]; simpl.
  - repeat constructor.
  - destruct (Z.leb_spec (key x) (key y)) as [Hle|Hgt].
    + constructor; [by constructor|].
      constructor; [done|].
      eapply Forall_impl; [exact Hall|]. unfold key_le. intros z Hz. lia.
    + constructor; [done|]. rewrite insert_by_perm.
      constructor; [unfold key_le; lia | done].
Qed.

Lemma sort_by_sorted l : StronglySorted key_le (sort_by key l).
Proof.
  induction l as [|x l IH]; [constructor|]. by apply insert_by_sorted.
Qed.

(** The head of the sorted list is an element of the list with the least
    key. *)
Lemma sort_by_head l r rest :
  sort_by key l = r :: rest ->
  r ∈ l /\ forall x, x ∈ l -> key r <= key x.
Proof.
  intros Hsort. pose proof (sort_by_sorted l) as Hsorted.
  pose proof (sort_by_perm l) as Hperm. rewrite Hsort in Hsorted, Hperm.
  split.
  - rewrite <- Hperm. by left.
  - intros x Hx. rewrite <- Hperm in Hx.
    apply StronglySorted_inv in Hsorted as [_ Hall].
    apply elem_of_cons in Hx as [->|Hx]; [lia|].
    by apply (proj1 (Forall_forall _ _) Hall).
Qed.

Lemma sort_by_nil l : sort_by key l = [] -> l = [].
Proof.
  intros Hsort. pose proof (sort_by_perm l) as Hperm. rewrite Hsort in Hperm.
  by apply Permutation_nil_l in Hperm.
Qed.

End Sorting.

Section WithEnv.
Variable env : Env.

(** The best supporting result, when there is one, is one of the results
    collected and supports the proposition. *)
Lemma chunk_results_best citation proposition model chunks :
  forall best all_results w best' all_results' w',
    chunk_results env citation proposition model chunks best all_results w
    = (Returned (best', all_results'), w') ->
    (forall b, best = Some b -> b ∈ all_results /\ PSR.supports_proposition b = true) ->
    forall b, best' = Some b -> b ∈ all_results' /\ PSR.supports_proposition b = true.
Proof.
  induction chunks as [|chunk rest IH]; intros best all_results w best' all_results' w'.
  - simpl. intros [= <- <- <-]. done.
  - simpl.
    destruct (_evaluate_single_chunk env citation proposition chunk model w)
      as [[result|e|] w1]; [| |done].
    + destruct (PSR.supports_proposition result) eqn:Hsup.
      * destruct (match best with Some _ => _ | None => _ end).
        -- destruct (String.eqb (PSR.confidence result) "high").
           ++ intros [= <- <- <-] _ b [= <-]. split; [|done].
              apply elem_of_app. right. by left.
           ++ intros Hrun _. eapply IH; [exact Hrun|].
              intros b [= <-]. split; [|done]. apply elem_of_app. right. by left.
        -- intros Hrun Hbest. eapply IH; [exact Hrun|].
           intros b Hb. destruct (Hbest b Hb). split; [|done].
           apply elem_of_app. by left.
      * intros Hrun Hbest. eapply IH; [exact Hrun|].
        intros b Hb. destruct (Hbest b Hb). split; [|done].
        apply elem_of_app. by left.
    + destruct e; try done. intros Hrun Hbest. eapply IH; [exact Hrun | exact Hbest].
Qed.

End WithEnv.

(** The defaults of the chunker (20000, 500) always yield a result. *)
Lemma default_chunks_total opinion_text :
  exists chunks, default_chunks opinion_text = Some chunks.
Proof.
  unfold default_chunks, Chunker._chunk_text.
  set (text := list_ascii_of_string opinion_text).
  destruct (Z.leb_spec (py_len text) 20000) as [Hshort|Hlong]; [by eauto|].
  pose proof (ChunkerFacts.chunk_text_windows text (Z.to_nat 20000) (Z.to_nat 500)
                (S (length text))) as Hrun.
  unfold Chunker._chunk_text in Hrun. rewrite !Z2Nat.id in Hrun by lia.
  destruct (Z.leb_spec (py_len text) 20000) as [?|_]; [lia|].
  unfold py_len in Hlong. rewrite Hrun by lia. simpl. eauto.
Qed.

(** C7: in the chunked fallback (the first call failed as too large), when
    results were obtained and none of them supports the proposition, the
    result returned is one of the results obtained, a negative one, whose
    confidence ranks lowest among all of them under high (0) before medium
    (1) before low (2); its reasoning is prefixed by the note
    "[Evaluated in N chunks] ", N being the number of chunks. *)
Theorem most_confident_negative (env : Env)
    (citation proposition opinion_text model message : string)
    (w w1 w2 : world) (chunks : list string)
    (best : option PSR.t) (all_results : list PSR.t) :
  _evaluate_single_chunk env citation proposition opinion_text model w
  = (Raised (BadRequestError message), w1) ->
  is_too_large message = true ->
  default_chunks opinion_text = Some chunks ->
  chunk_results env citation proposition model chunks None [] w1
  = (Returned (best, all_results), w2) ->
  all_results <> [] ->
  (forall r, r ∈ all_results -> PSR.supports_proposition r = false) ->
  exists r0,
    evaluate_proposition_support env citation proposition opinion_text model w
    = (Returned
         (PSR.set_reasoning
            ("[Evaluated in " +:+ PyStr.str_int (py_len chunks) +:+ " chunks] "
             +:+ PSR.reasoning r0) r0), w2) /\
    r0 ∈ all_results /\
    PSR.supports_proposition r0 = false /\
    (forall r, r ∈ all_results ->
       confidence_rank (PSR.confidence r0) <= confidence_rank (PSR.confidence r)) /\
    confidence_rank "high" < confidence_rank "medium" < confidence_rank "low".
Proof.
  intros Hfirst Hlarge Hchunks Hloop Hsome Hneg.
  assert (Hbest : best = None).
  { destruct best as [b|]; [|done].
    destruct (chunk_results_best env _ _ _ _ _ _ _ _ _ _ Hloop ltac:(done) b eq_refl)
      as [Hin Hsup].
    by rewrite (Hneg b Hin) in Hsup. }
  subst best.
  destruct (sort_by (fun r => confidence_rank (PSR.confidence r)) all_results)
    as [|r0 rest] eqn:Hsort.
  { by apply sort_by_nil in Hsort. }
  destruct (sort_by_head _ _ _ _ Hsort) as [Hin Hmin].
  exists r0. split; [|split; [done | split; [by apply Hneg | split; [done|]]]].
  - unfold evaluate_proposition_support, chunked_fallback.
    rewrite Hfirst, Hlarge, Hchunks, Hloop. unfold select_result. by rewrite Hsort.
  - by vm_compute.
Qed.

(** A run with two windows: an opinion of 20001 characters, split into a
    window of 20000 and one of 501. *)
Definition long_opinion : string :=
  string_of_list_ascii (replicate (Z.to_nat 20001) "a"%char).
Definition full_window : string :=
  string_of_list_ascii (replicate (Z.to_nat 20000) "a"%char).
Definition tail_window : string :=
  string_of_list_ascii (replicate (Z.to_nat 501) "a"%char).

Lemma length_string_of_list_ascii l :
  String.length (string_of_list_ascii l) = length l.
Proof. induction l as [|c l IH]; simpl; [done | by rewrite IH]. Qed.

Lemma long_opinion_chunks : default_chunks long_opinion = Some [full_window; tail_window].
Proof.
  unfold default_chunks, long_opinion, full_window, tail_window.
  rewrite list_ascii_of_string_of_list_ascii.
  set (text := replicate (Z.to_nat 20001) "a"%char).
  assert (Hlen : length text = Z.to_nat 20001) by apply length_replicate.
  pose proof (ChunkerFacts.chunk_text_windows text (Z.to_nat 20000) (Z.to_nat 500)
                (S (length text))) as Hrun.
  rewrite !Z2Nat.id in Hrun by lia. rewrite Hrun by lia. clear Hrun.
  unfold Chunker.windows. rewrite Hlen.
  assert (Hcount : Chunker.window_count (Z.to_nat 20001) (Z.to_nat 20000) (Z.to_nat 500)
                   = 2%nat).
  { unfold Chunker.window_count. symmetry.
    apply (Nat.div_unique _ _ 2%nat (Z.to_nat 500)); lia. }
  rewrite Hcount. unfold seq, map, fmap, option_fmap, option_map, list_fmap.
  unfold Chunker.window, text.
  rewrite Nat.mul_0_l, Nat.mul_1_l, drop_0, drop_replicate, !take_replicate.
  replace (Z.to_nat 20000 `min` Z.to_nat 20001)%nat with (Z.to_nat 20000) by lia.
  replace (Z.to_nat 20000 `min` (Z.to_nat 20001 - (Z.to_nat 20000 - Z.to_nat 500)))%nat
    with (Z.to_nat 501) by lia.
  reflexivity.
Qed.

Lemma long_opinion_length : Z.of_nat (String.length long_opinion) = 20001.
Proof.
  unfold long_opinion. rewrite length_string_of_list_ascii, length_replicate. lia.
Qed.

Lemma full_window_length : Z.of_nat (String.length full_window) = 20000.
Proof.
  unfold full_window. rewrite length_string_of_list_ascii, length_replicate. lia.
Qed.

Lemma tail_window_length : Z.of_nat (String.length tail_window) = 501.
Proof.
  unfold tail_window. rewrite length_string_of_list_ascii, length_replicate. lia.
Qed.

Lemma long_opinion_too_large p :
  Fixture.support long_opinion p
  = Raised (BadRequestError "This model's maximum context length was exceeded").
Proof. unfold Fixture.support. by rewrite long_opinion_length. Qed.

Lemma full_window_low :
  Fixture.support full_window "The sky is green."
  = Returned (Some (PSR.mk false "low" "Nothing on point here." None)).
Proof. unfold Fixture.support. by rewrite full_window_length. Qed.

Lemma tail_window_high :
  Fixture.support tail_window "The sky is green."
  = Returned (Some (PSR.mk false "high" "The opinion holds otherwise." None)).
Proof. unfold Fixture.support. by rewrite tail_window_length. Qed.

Lemma most_confident_negative_witness :
  exists r0 w2,
    evaluate_proposition_support (Fixture.env []) "1 U.S. 1" "The sky is green."
      long_opinion "gpt-5-mini" Fixture.empty_world
    = (Returned
         (PSR.set_reasoning ("[Evaluated in 2 chunks] " +:+ PSR.reasoning r0) r0), w2) /\
    PSR.supports_proposition r0 = false /\
    confidence_rank (PSR.confidence r0) <= confidence_rank "high".
Proof.
  edestruct (most_confident_negative (Fixture.env []) "1 U.S. 1" "The sky is green."
               long_opinion "gpt-5-mini")
    as (r0 & Hrun & Hin & Hsup & Hmin & _).
  - unfold _evaluate_single_chunk. cbn [parse_support Fixture.env].
    rewrite long_opinion_too_large. reflexivity.
  - vm_compute. reflexivity.
  - exact long_opinion_chunks.
  - unfold chunk_results, _evaluate_single_chunk. cbn [parse_support Fixture.env].
    rewrite full_window_low. cbn [PSR.supports_proposition].
    rewrite tail_window_high. cbn [PSR.supports_proposition]. reflexivity.
  - done.
  - intros r Hr. repeat (apply elem_of_cons in Hr as [->|Hr]; [reflexivity|]).
    by apply elem_of_nil in Hr.
  - eexists r0, _. split; [exact Hrun|]. split; [done|].
    apply (Hmin (PSR.mk false "high" "The opinion holds otherwise." None)).
    simpl. apply elem_of_cons. right. apply elem_of_cons. by left.
Defined.

End SupportFacts.

(** ** The orchestrator: counts *)

Module CountFacts.
Import Evaluation.
Local Open Scope string_scope.
Local Open Scope list_scope.
Local Open Scope Z_scope.

(** How the counters of [ev'] stand to those of [ev] after [n] more
    citations. *)
Record advances (n : Z) (ev ev' : CE.t) : Prop := {
  adv_total : CE.total_citations ev' = CE.total_citations ev;
  adv_kinds :
    CE.case_citations ev' + CE.statute_citations ev'
    = CE.case_citations ev + CE.statute_citations ev + n;
  adv_case : CE.case_citations ev <= CE.case_citations ev';
  adv_statute : CE.statute_citations ev <= CE.statute_citations ev';
  adv_validity :
    CE.valid_citations ev' + CE.invalid_citations ev'
    - (CE.valid_citations ev + CE.invalid_citations ev)
    = CE.case_citations ev' - CE.case_citations ev;
  adv_valid : CE.valid_citations ev <= CE.valid_citations ev';
  adv_invalid : CE.invalid_citations ev <= CE.invalid_citations ev';
  adv_supported : CE.supported_propositions ev <= CE.supported_propositions ev';
  adv_unsupported : CE.unsupported_propositions ev <= CE.unsupported_propositions ev';
  adv_support :
    CE.supported_propositions ev' + CE.unsupported_propositions ev'
    - (CE.supported_propositions ev + CE.unsupported_propositions ev)
    <= CE.valid_citations ev' - CE.valid_citations ev
}.

Lemma advances_refl ev : advances 0 ev ev.
Proof. split; lia. Qed.

Lemma advances_trans n m ev1 ev2 ev3 :
  advances n ev1 ev2 -> advances m ev2 ev3 -> advances (n + m) ev1 ev3.
Proof. intros [] []. split; lia. Qed.

(** What every entry of the citations mapping satisfies: a citation that
    is not a statute has a definite validity, and a support verdict is
    only recorded for a valid citation that is not a statute. *)
Definition entry_ok (ce : CitationEvaluation.t) : Prop :=
  (CitationEvaluation.citation_type ce <> "statute" ->
   exists b, CitationEvaluation.is_valid ce = Some b) /\
  (is_Some (CitationEvaluation.supports_proposition ce) ->
   CitationEvaluation.is_valid ce = Some true /\
   CitationEvaluation.citation_type ce <> "statute").

Definition entries_ok (ev : CE.t) : Prop :=
  forall key ce, CE.citations ev !! key = Some ce -> entry_ok ce.

Lemma store_returned cit cit_eval ev w ev' w' :
  store cit cit_eval ev w = (Returned ev', w') ->
  w' = w /\
  exists key,
    unique_key (CE.citations ev) (ExtractedCitation.raw_text cit) = Some key /\
    ev' = put_citation key cit_eval ev.
Proof.
  unfold store. destruct (unique_key _ _) as [key|]; [|done].
  intros [= <- <-]. eauto.
Qed.

Lemma entries_ok_put key ce ev0 ev :
  CE.citations ev = CE.citations ev0 ->
  entries_ok ev0 -> entry_ok ce -> entries_ok (put_citation key ce ev).
Proof.
  intros Hsame Hev Hce key' ce'. unfold put_citation. simpl.
  rewrite Hsame, lookup_insert. case_decide.
  - by intros [= <-].
  - apply Hev.
Qed.

Section WithEnv.
Variable env : Env.

Lemma evaluate_citation_advances model cit ev w ev' w' :
  evaluate_citation env model cit ev w = (Returned ev', w') ->
  advances 1 ev ev' /\ (entries_ok ev -> entries_ok ev').
Proof.
  unfold evaluate_citation.
  destruct (String.eqb_spec (ExtractedCitation.citation_type cit) "statute") as [Hst|Hst].
  { intros (-> & key & _ & ->)%store_returned. split.
    - split; simpl; lia.
    - intros Hev. apply (entries_ok_put _ _ ev); [done..|]. split; simpl; [done|].
      by intros [? ?]. }
  destruct (Validator.validate_citation env _ w) as [[[[]| |] validated] w1] eqn:Hval;
    [|done..].
  apply ValidatorFacts.validate_citation_returned in Hval as (_ & [b Hb] & _).
  case_bool_decide as Hvalid.
  - destruct (PyStr.truthy (Citation.opinion_text validated)).
    + destruct (evaluate_proposition_support env _ _ _ model w1)
        as [[support| |] w2]; [|done..].
      intros (-> & key & _ & ->)%store_returned. split.
      * destruct (PSR.supports_proposition support); split; simpl; lia.
      * intros Hev. apply (entries_ok_put _ _ ev); [|done|].
        -- by destruct (PSR.supports_proposition support).
        -- split; simpl; [by eauto | by intros _].
    + intros (-> & key & _ & ->)%store_returned. split.
      * split; simpl; lia.
      * intros Hev. apply (entries_ok_put _ _ ev); [done..|].
        split; simpl; [by eauto | by intros [? ?]].
  - intros (-> & key & _ & ->)%store_returned. split.
    + split; simpl; lia.
    + intros Hev. apply (entries_ok_put _ _ ev); [done..|].
      split; simpl; [by eauto | by intros [? ?]].
Qed.

Lemma evaluate_citations_advances model citations :
  forall ev w ev' w',
    evaluate_citations env model citations ev w = (Returned ev', w') ->
    advances (py_len citations) ev ev' /\ (entries_ok ev -> entries_ok ev').
Proof.
  induction citations as [|cit rest IH]; intros ev w ev' w'.
  - intros [= <- <-]. split; [apply advances_refl | done].
  - simpl. unfold bind.
    destruct (evaluate_citation env model cit ev w) as [[ev1| |] w1] eqn:Hcit; [|done..].
    intros Hrest. apply evaluate_citation_advances in Hcit as [Hadv1 Hok1].
    apply IH in Hrest as [Hadv Hok]. split; [|tauto].
    replace (py_len (cit :: rest)) with (1 + py_len rest)
      by (unfold py_len; simpl length; lia).
    by eapply advances_trans.
Qed.

(** The counters and entries of a returned evaluation. *)
Lemma evaluate_complaint_counts name text metadata m1 m2 w ev w' :
  evaluate_complaint env name text metadata m1 m2 w = (Returned ev, w') ->
  CE.case_citations ev + CE.statute_citations ev = CE.total_citations ev /\
  0 <= CE.statute_citations ev /\
  CE.valid_citations ev + CE.invalid_citations ev = CE.case_citations ev /\
  0 <= CE.invalid_citations ev /\
  0 <= CE.supported_propositions ev /\ 0 <= CE.unsupported_propositions ev /\
  CE.supported_propositions ev + CE.unsupported_propositions ev <= CE.valid_citations ev /\
  entries_ok ev.
Proof.
  unfold evaluate_complaint, bind.
  destruct (extract_citations_with_llm env text m1 w) as [[citations| |] w1]; [|done..].
  intros [[] Hok]%evaluate_citations_advances. simpl in *.
  split; [lia|]. split; [lia|]. split; [lia|]. split; [lia|].
  split; [lia|]. split; [lia|]. split; [lia|].
  apply Hok. intros key ce. simpl. by rewrite lookup_empty.
Qed.

End WithEnv.

(** C8: every evaluation [evaluate_complaint] returns satisfies
    [valid + invalid <= case <= total] and
    [supported + unsupported <= valid]; a support verdict is recorded only
    for a valid citation that is not a statute. *)
Theorem complaint_count_bounds (env : Env) (name text : string)
    (metadata : gmap string string) (extraction_model evaluation_model : string)
    (w w' : world) (ev : CE.t) :
  evaluate_complaint env name text metadata extraction_model evaluation_model w
  = (Returned ev, w') ->
  CE.valid_citations ev + CE.invalid_citations ev <= CE.case_citations ev
    <= CE.total_citations ev /\
  CE.supported_propositions ev + CE.unsupported_propositions ev
    <= CE.valid_citations ev /\
  (forall key ce,
     CE.citations ev !! key = Some ce ->
     is_Some (CitationEvaluation.supports_proposition ce) ->
     CitationEvaluation.is_valid ce = Some true /\
     CitationEvaluation.citation_type ce <> "statute").
Proof.
  intros Hrun. apply evaluate_complaint_counts in Hrun
    as (Hkinds & Hst & Hval & _ & _ & _ & Hsup & Hok).
  split; [lia|]. split; [lia|].
  intros key ce Hce. by apply (Hok key ce Hce).
Qed.

(** A document with a known case, an unknown case and a statute. *)
Definition sample_citations : list ExtractedCitation.t :=
  [ ExtractedCitation.mk "Smith v. Jones, 123 F.3d 456" "case"
      "Defendants owe a duty of care.";
    ExtractedCitation.mk "Doe v. Roe, 1 U.S. 1" "case" "Notice is required.";
    ExtractedCitation.mk "G.L. c. 231, s. 85" "statute" "Comparative negligence applies." ].

Definition sample_run : outcome CE.t * world :=
  evaluate_complaint (Fixture.env sample_citations) "complaint_001.txt"
    "COMPLAINT ..." ∅ "gpt-5-mini" "gpt-5-mini" Fixture.empty_world.

Lemma sample_run_returns :
  exists ev w',
    sample_run = (Returned ev, w') /\
    CE.total_citations ev = 3 /\ CE.case_citations ev = 2 /\
    CE.statute_citations ev = 1 /\ CE.valid_citations ev = 1 /\
    CE.invalid_citations ev = 1 /\ CE.supported_propositions ev = 1 /\
    CE.unsupported_propositions ev = 0.
Proof. eexists _, _. split; [vm_compute; reflexivity|]. by vm_compute. Qed.

Lemma complaint_count_bounds_witness :
  exists ev w',
    sample_run = (Returned ev, w') /\
    CE.valid_citations ev + CE.invalid_citations ev <= CE.case_citations ev
      <= CE.total_citations ev /\
    CE.supported_propositions ev + CE.unsupported_propositions ev
      <= CE.valid_citations ev.
Proof.
  destruct sample_run_returns as (ev & w' & Hrun & _).
  exists ev, w'. split; [done|].
  destruct (complaint_count_bounds _ _ _ _ _ _ _ _ _ Hrun) as (H1 & H2 & _).
  by split.
Defined.

(** C10: in every evaluation [evaluate_complaint] returns,
    [valid + invalid = case] and [case + statute = total]; every entry
    that is not a statute has a definite validity ([True] or [False]). *)
Theorem complaint_counts_exact (env : Env) (name text : string)
    (metadata : gmap string string) (extraction_model evaluation_model : string)
    (w w' : world) (ev : CE.t) :
  evaluate_complaint env name text metadata extraction_model evaluation_model w
  = (Returned ev, w') ->
  CE.valid_citations ev + CE.invalid_citations ev = CE.case_citations ev /\
  CE.case_citations ev + CE.statute_citations ev = CE.total_citations ev /\
  (forall key ce,
     CE.citations ev !! key = Some ce ->
     CitationEvaluation.citation_type ce <> "statute" ->
     exists b, CitationEvaluation.is_valid ce = Some b).
Proof.
  intros Hrun. apply evaluate_complaint_counts in Hrun
    as (Hkinds & _ & Hval & _ & _ & _ & _ & Hok).
  split; [done|]. split; [done|].
  intros key ce Hce. by apply (Hok key ce Hce).
Qed.

Lemma complaint_counts_exact_witness :
  exists ev w',
    sample_run = (Returned ev, w') /\
    CE.valid_citations ev + CE.invalid_citations ev = CE.case_citations ev /\
    CE.case_citations ev + CE.statute_citations ev = CE.total_citations ev.
Proof.
  destruct sample_run_returns as (ev & w' & Hrun & _).
  exists ev, w'. split; [done|].
  destruct (complaint_counts_exact _ _ _ _ _ _ _ _ _ Hrun) as (H1 & H2 & _).
  by split.
Defined.

End CountFacts.

(** ** The orchestrator: keys of the citations mapping *)

Module KeyFacts.
Import Evaluation.
Local Open Scope string_scope.
Local Open Scope list_scope.
Local Open Scope Z_scope.

Abbreviation letters := list_ascii_of_string.

Lemma chars_app s1 s2 : letters (s1 +:+ s2) = letters s1 ++ letters s2.
Proof. induction s1 as [|c s1 IH]; simpl; [done | by rewrite IH]. Qed.

Lemma chars_inj s1 s2 : letters s1 = letters s2 -> s1 = s2.
Proof.
  intros H. rewrite <- (string_of_list_ascii_of_string s1),
    <- (string_of_list_ascii_of_string s2). by rewrite H.
Qed.

(** The decimal rendering of an integer holds no space. *)
Lemma uint_no_space d : " "%char ∉ letters (NilEmpty.string_of_uint d).
Proof.
  induction d; simpl; try apply not_elem_of_nil;
    (apply not_elem_of_cons; split; [done | assumption]).
Qed.

Lemma str_int_no_space n : " "%char ∉ letters (PyStr.str_int n).
Proof.
  unfold PyStr.str_int, NilZero.string_of_int.
  assert (Hu : forall d, " "%char ∉ letters (NilZero.string_of_uint d)).
  { intros d. pose proof (uint_no_space d) as H.
    destruct d; try exact H. simpl.
    apply not_elem_of_cons; split; [done | apply not_elem_of_nil]. }
  destruct (Z.to_int n) as [d|d]; [apply Hu|].
  simpl. apply not_elem_of_cons; split; [done | apply Hu].
Qed.

Lemma str_int_inj n m : PyStr.str_int n = PyStr.str_int m -> n = m.
Proof.
  unfold PyStr.str_int. intros H.
  assert (Hparse : forall z,
             NilZero.int_of_string (NilZero.string_of_int (Z.to_int z)) = Some (Z.to_int z)).
  { intros z. apply NilZero.isi; destruct z as [|p|p]; simpl; try done;
      intros [= Hp]; by apply DecimalPos.Unsigned.to_uint_nonnil in Hp. }
  apply DecimalZ.to_int_inj.
  pose proof (Hparse n) as Hn. rewrite H, Hparse in Hn. by injection Hn.
Qed.

(** The suffix [" (n)"], as characters. *)
Definition suffix_chars (n : Z) : list ascii :=
  " "%char :: "("%char :: letters (PyStr.str_int n) ++ [")"%char].

Lemma chars_suffixed raw n : letters (suffixed raw n) = letters raw ++ suffix_chars n.
Proof. unfold suffixed, suffix_chars. by rewrite !chars_app. Qed.

(** A proper extension of one suffix is never another suffix: past its
    first character a suffix holds no space. *)
Lemma suffix_chars_not_extended n m z k :
  suffix_chars n <> (z :: k) ++ suffix_chars m.
Proof.
  unfold suffix_chars. intros [= _ H].
  assert (Hin : " "%char ∈ "("%char :: letters (PyStr.str_int n) ++ [")"%char]).
  { rewrite H. apply elem_of_app. right. by left. }
  apply elem_of_cons in Hin as [?|Hin]; [done|].
  apply elem_of_app in Hin as [Hin|Hin].
  - by apply str_int_no_space in Hin.
  - apply elem_of_cons in Hin as [?|Hin]; [done | by apply elem_of_nil in Hin].
Qed.

Lemma suffixed_inj raw1 n1 raw2 n2 :
  suffixed raw1 n1 = suffixed raw2 n2 -> raw1 = raw2 /\ n1 = n2.
Proof.
  intros H. apply (f_equal letters) in H. rewrite !chars_suffixed in H.
  apply app_eq_inv in H as [(k & H1 & H2)|(k & H1 & H2)].
  - destruct k as [|z k].
    + rewrite app_nil_r in H1. simpl in H2. unfold suffix_chars in H2.
      injection H2 as H2. apply app_inv_tail in H2.
      split; [by apply chars_inj | by apply str_int_inj, chars_inj].
    + by apply suffix_chars_not_extended in H2.
  - destruct k as [|z k].
    + rewrite app_nil_r in H1. simpl in H2. unfold suffix_chars in H2.
      injection H2 as H2. apply app_inv_tail in H2.
      split; [by apply chars_inj | by apply str_int_inj, chars_inj].
    + by apply suffix_chars_not_extended in H2.
Qed.

Lemma suffixed_ne raw n : suffixed raw n <> raw.
Proof.
  intros H. apply (f_equal letters) in H. rewrite chars_suffixed in H.
  apply (f_equal length) in H. rewrite length_app in H. simpl in H. lia.
Qed.

(** The key of the [c]-th occurrence (from 0) of a raw text when nothing
    else interferes: the raw text itself, then ["raw (1)"], ["raw (2)"]... *)
Definition occurrence_key (raw : string) (c : nat) : string :=
  match c with
  | O => raw
  | S _ => suffixed raw (Z.of_nat c)
  end.

Lemma occurrence_key_S raw k :
  suffixed raw (Z.of_nat k + 1) = occurrence_key raw (S k).
Proof. simpl. f_equal. lia. Qed.

Global Instance occurrence_key_inj raw : Inj (=) (=) (occurrence_key raw).
Proof.
  intros [|n] [|k] H; simpl in H; [done| | |].
  - by apply eq_sym, suffixed_ne in H.
  - by apply suffixed_ne in H.
  - apply suffixed_inj in H as [_ H]. lia.
Qed.

Section Loop.
Variable m : gmap string CitationEvaluation.t.
Variable raw : string.

(** Keys in the mapping are counted by its size. *)
Lemma occurrence_keys_bound k :
  (forall n, (n < k)%nat -> is_Some (m !! occurrence_key raw n)) -> (k <= size m)%nat.
Proof.
  intros Hin.
  set (keys := list_to_set (occurrence_key raw <$> seq 0 k) : gset string).
  assert (Hsize : size keys = k).
  { unfold keys. rewrite size_list_to_set.
    - by rewrite length_fmap, length_seq.
    - apply NoDup_fmap_2; [apply _ | apply NoDup_seq]. }
  assert (Hsub : keys ⊆ dom m).
  { intros key Hkey. unfold keys in Hkey.
    apply elem_of_list_to_set, list_elem_of_fmap in Hkey as (n & -> & Hn).
    apply elem_of_seq in Hn. apply elem_of_dom, Hin. lia. }
  apply subseteq_size in Hsub. rewrite size_dom in Hsub. lia.
Qed.

(** The loop stops at the first key of the sequence that is not in the
    mapping; a fuel above the size of the mapping is enough. *)
Lemma key_loop_least fuel :
  forall k,
    (forall n, (n < k)%nat -> is_Some (m !! occurrence_key raw n)) ->
    (size m < k + fuel)%nat ->
    exists c,
      key_loop fuel m raw (occurrence_key raw k) (Z.of_nat k + 1)
      = Some (occurrence_key raw c) /\
      m !! occurrence_key raw c = None /\
      forall n, (n < c)%nat -> is_Some (m !! occurrence_key raw n).
Proof.
  induction fuel as [|fuel IH]; intros k Hin Hfuel.
  - apply occurrence_keys_bound in Hin. lia.
  - simpl. case_bool_decide as Hk.
    + rewrite occurrence_key_S. replace (Z.of_nat k + 1 + 1) with (Z.of_nat (S k) + 1) by lia.
      apply IH; [|lia].
      intros n Hn. destruct (decide (n = k)) as [->|]; [done | apply Hin; lia].
    + exists k. split; [done|]. split; [|done].
      by apply eq_None_not_Some.
Qed.

Lemma unique_key_least :
  exists c,
    unique_key m raw = Some (occurrence_key raw c) /\
    m !! occurrence_key raw c = None /\
    forall n, (n < c)%nat -> is_Some (m !! occurrence_key raw n).
Proof.
  unfold unique_key. apply (key_loop_least (S (size m)) 0%nat); [|lia].
  intros n Hn. lia.
Qed.

End Loop.

(** The key loop always finds a key, and a fresh one. *)
Lemma unique_key_total m raw :
  exists key, unique_key m raw = Some key /\ m !! key = None.
Proof. destruct (unique_key_least m raw) as (c & Hkey & Hfree & _). eauto. Qed.

Module EC := ExtractedCitation.

(** How often a raw text occurs in a list of extracted citations. *)
Definition occurrences (raw : string) (l : list EC.t) : nat :=
  length (filter (fun cit => EC.raw_text cit = raw) l).

(** The key under which the citation at index [i] is expected. *)
Definition key_of (cits : list EC.t) (i : nat) (cit : EC.t) : string :=
  occurrence_key (EC.raw_text cit) (occurrences (EC.raw_text cit) (take i cits)).

(** The entry is the evaluation of that citation. *)
Definition evaluates (cit : EC.t) (ce : CitationEvaluation.t) : Prop :=
  CitationEvaluation.raw_text ce = EC.raw_text cit /\
  CitationEvaluation.citation_type ce = EC.citation_type cit /\
  CitationEvaluation.proposition ce = EC.proposition cit.

(** No raw text of the document reads as another raw text of the document
    (or itself) followed by a counter suffix. *)
Definition no_suffixed_raw (cits : list EC.t) : Prop :=
  forall a b n, a ∈ cits -> b ∈ cits -> 1 <= n ->
    EC.raw_text a <> suffixed (EC.raw_text b) n.

Lemma occurrences_app raw l1 l2 :
  occurrences raw (l1 ++ l2) = (occurrences raw l1 + occurrences raw l2)%nat.
Proof. unfold occurrences. by rewrite filter_app, length_app. Qed.

Lemma occurrences_cons raw cit l :
  occurrences raw (cit :: l)
  = ((if decide (EC.raw_text cit = raw) then 1 else 0) + occurrences raw l)%nat.
Proof. unfold occurrences. rewrite filter_cons. by case_decide. Qed.

Lemma occurrences_singleton raw cit :
  occurrences raw [cit] = if decide (EC.raw_text cit = raw) then 1%nat else 0%nat.
Proof.
  unfold occurrences. rewrite filter_cons, filter_nil. by case_decide.
Qed.

Lemma occurrences_take_lt l i cit :
  l !! i = Some cit ->
  (occurrences (EC.raw_text cit) (take i l) < occurrences (EC.raw_text cit) l)%nat.
Proof.
  intros Hi. rewrite <- (take_drop_middle l i cit Hi) at 2.
  rewrite occurrences_app, occurrences_cons, decide_True by done. lia.
Qed.

Lemma occurrence_exists raw l :
  forall n, (n < occurrences raw l)%nat ->
    exists i cit, l !! i = Some cit /\ EC.raw_text cit = raw /\
                  occurrences raw (take i l) = n.
Proof.
  induction l as [|cit l IH] using rev_ind; intros n Hn.
  - unfold occurrences in Hn. simpl in Hn. lia.
  - rewrite occurrences_app, occurrences_singleton in Hn.
    destruct (decide (n < occurrences raw l)%nat) as [Hlt|Hge].
    + destruct (IH n Hlt) as (i & c & Hi & Hraw & Hocc).
      pose proof (lookup_lt_Some _ _ _ Hi).
      exists i, c. rewrite lookup_app_l, take_app_le by lia. done.
    + case_decide as Hraw; [|lia].
      exists (length l), cit. rewrite list_lookup_middle, take_app_length by done.
      repeat split; [done | lia].
Qed.

(** Under [no_suffixed_raw] the keys of different raw texts never meet. *)
Lemma occurrence_key_joint cits a b n k :
  no_suffixed_raw cits -> a ∈ cits -> b ∈ cits ->
  occurrence_key (EC.raw_text a) n = occurrence_key (EC.raw_text b) k ->
  EC.raw_text a = EC.raw_text b /\ n = k.
Proof.
  intros Hno Ha Hb H. destruct n as [|n], k as [|k]; simpl in H.
  - done.
  - exfalso. by apply (Hno a b (Z.of_nat (S k)) Ha Hb ltac:(lia)).
  - exfalso. by apply (Hno b a (Z.of_nat (S n)) Hb Ha ltac:(lia)).
  - apply suffixed_inj in H as [? ?]. split; [done | lia].
Qed.

(** The mapping holds exactly the evaluations of the citations processed
    so far, each under its expected key. *)
Record keyed (done : list EC.t) (m : gmap string CitationEvaluation.t) : Prop := {
  keyed_present :
    forall i cit, done !! i = Some cit ->
      exists ce, m !! key_of done i cit = Some ce /\ evaluates cit ce;
  keyed_only :
    forall key, is_Some (m !! key) ->
      exists i cit, done !! i = Some cit /\ key = key_of done i cit
}.

Lemma keyed_nil : keyed [] ∅.
Proof. split; [done|]. intros key [? H]. by rewrite lookup_empty in H. Qed.

Lemma key_of_app_l done rest i cit :
  (i <= length done)%nat -> key_of (done ++ rest) i cit = key_of done i cit.
Proof. intros Hi. unfold key_of. by rewrite take_app_le. Qed.

(** Storing the next citation under the key the loop finds keeps the
    mapping keyed. *)
Lemma keyed_step cits done cit m key ce :
  no_suffixed_raw cits ->
  (forall x, x ∈ done ++ [cit] -> x ∈ cits) ->
  keyed done m ->
  unique_key m (EC.raw_text cit) = Some key ->
  evaluates cit ce ->
  keyed (done ++ [cit]) (<[key := ce]> m).
Proof.
  intros Hno Hsub [Hpresent Honly] Hkey Hce.
  assert (Hcit : cit ∈ cits) by (apply Hsub, elem_of_app; right; by left).
  assert (Hdone : forall i x, done !! i = Some x -> x ∈ cits).
  { intros i x Hi. apply Hsub, elem_of_app. left. by eapply list_elem_of_lookup_2. }
  destruct (unique_key_least m (EC.raw_text cit)) as (c & Hkey' & Hfree & Hbelow).
  rewrite Hkey in Hkey'. injection Hkey' as ->.
  assert (Hc : c = occurrences (EC.raw_text cit) done).
  { destruct (Nat.lt_trichotomy c (occurrences (EC.raw_text cit) done)) as [Hlt|[?|Hgt]];
      [exfalso | done | exfalso].
    - destruct (occurrence_exists _ _ c Hlt) as (i & x & Hi & Hraw & Hocc).
      destruct (Hpresent i x Hi) as (ce' & Hce' & _).
      unfold key_of in Hce'. rewrite Hraw, Hocc in Hce'. by rewrite Hfree in Hce'.
    - destruct (Honly _ (Hbelow _ Hgt)) as (i & x & Hi & Heq).
      apply (occurrence_key_joint cits cit x) in Heq as [Hraw Hocc];
        [|by eauto using Hdone ..].
      pose proof (occurrences_take_lt done i x Hi) as Hlt.
      rewrite <- Hraw in Hlt, Hocc. lia. }
  assert (Hfresh : forall i x, done !! i = Some x ->
             key_of done i x <> occurrence_key (EC.raw_text cit) c).
  { intros i x Hi Heq. destruct (Hpresent i x Hi) as (ce' & Hce' & _).
    rewrite Heq in Hce'. by rewrite Hfree in Hce'. }
  split.
  - intros i x Hi. apply lookup_app_Some in Hi as [Hi|[Hlen Hi]].
    + pose proof (lookup_lt_Some _ _ _ Hi).
      rewrite key_of_app_l by lia.
      rewrite lookup_insert_ne by (intros Heq; by eapply Hfresh).
      by apply Hpresent.
    + apply list_lookup_singleton_Some in Hi as [Hi <-].
      replace i with (length done) by lia.
      rewrite key_of_app_l by lia. unfold key_of. rewrite firstn_all, <- Hc.
      rewrite lookup_insert_eq. eauto.
  - intros key. rewrite lookup_insert. case_decide as Hk.
    + intros _. subst key. exists (length done), cit.
      rewrite list_lookup_middle by done. split; [done|].
      rewrite key_of_app_l by lia. unfold key_of. by rewrite firstn_all, <- Hc.
    + intros Hin. destruct (Honly key Hin) as (i & x & Hi & ->).
      pose proof (lookup_lt_Some _ _ _ Hi).
      exists i, x. rewrite lookup_app_l, key_of_app_l by lia. done.
Qed.

Section WithEnv.
Variable env : Env.

(** Each round stores the evaluation of its citation under the key the
    loop finds, and changes no other entry. *)
Lemma evaluate_citation_stores model cit ev w ev' w' :
  evaluate_citation env model cit ev w = (Returned ev', w') ->
  exists key ce,
    unique_key (CE.citations ev) (EC.raw_text cit) = Some key /\
    CE.citations ev' = <[key := ce]> (CE.citations ev) /\
    evaluates cit ce.
Proof.
  unfold evaluate_citation.
  destruct (String.eqb (EC.citation_type cit) "statute").
  { intros (_ & key & Hkey & ->)%CountFacts.store_returned. by eexists key, _. }
  destruct (Validator.validate_citation env _ w) as [[[[]| |] validated] w1]; [|done..].
  case_bool_decide.
  - destruct (PyStr.truthy (Citation.opinion_text validated)).
    + destruct (evaluate_proposition_support env _ _ _ model w1)
        as [[support| |] w2]; [|done..].
      destruct (PSR.supports_proposition support);
        intros (_ & key & Hkey & ->)%CountFacts.store_returned; by eexists key, _.
    + intros (_ & key & Hkey & ->)%CountFacts.store_returned. by eexists key, _.
  - intros (_ & key & Hkey & ->)%CountFacts.store_returned. by eexists key, _.
Qed.

Lemma evaluate_citations_keyed cits model rest :
  forall done ev w ev' w',
    evaluate_citations env model rest ev w = (Returned ev', w') ->
    no_suffixed_raw cits ->
    (forall x, x ∈ done ++ rest -> x ∈ cits) ->
    keyed done (CE.citations ev) ->
    keyed (done ++ rest) (CE.citations ev').
Proof.
  induction rest as [|cit rest IH]; intros done ev w ev' w'.
  - intros [= <- <-] _ _ Hkeyed. by rewrite app_nil_r.
  - simpl. unfold bind.
    destruct (evaluate_citation env model cit ev w) as [[ev1| |] w1] eqn:Hcit; [|done..].
    intros Hrest Hno Hsub Hkeyed.
    apply evaluate_citation_stores in Hcit as (key & ce & Hkey & Hput & Hce).
    rewrite (cons_middle cit done rest), app_assoc in *.
    eapply IH; [exact Hrest | done | done |].
    rewrite Hput. eapply keyed_step; try done.
    intros x Hx. apply Hsub, elem_of_app. by left.
Qed.

End WithEnv.

(** A document that cites a rule and one of its numbered parts. *)
Definition clashing_citations : list EC.t :=
  [ EC.mk "Rule 12(b) (1)" "statute" "The court lacks jurisdiction.";
    EC.mk "Rule 12(b)" "statute" "Defenses are raised by motion.";
    EC.mk "Rule 12(b)" "statute" "The motion precedes the answer." ].

(** C9, as stated, fails: in a document citing "Rule 12(b) (1)" and then
    "Rule 12(b)" twice, the key "Rule 12(b) (1)" holds the evaluation of
    the first citation, not of the second "Rule 12(b)", which is stored
    under "Rule 12(b) (2)". *)
Lemma duplicate_key_counterexample :
  exists ev w',
    evaluate_complaint (Fixture.env clashing_citations) "complaint_002.txt"
      "COMPLAINT ..." ∅ "gpt-5-mini" "gpt-5-mini" Fixture.empty_world
    = (Returned ev, w') /\
    (CitationEvaluation.proposition <$> CE.citations ev !! "Rule 12(b)")
    = Some "Defenses are raised by motion." /\
    (CitationEvaluation.proposition <$> CE.citations ev !! "Rule 12(b) (1)")
    = Some "The court lacks jurisdiction." /\
    (CitationEvaluation.proposition <$> CE.citations ev !! "Rule 12(b) (2)")
    = Some "The motion precedes the answer.".
Proof. eexists _, _. split; [vm_compute; reflexivity|]. by vm_compute. Qed.

(** C9, amended: in a document none of whose raw citation texts reads as
    a raw text of the document followed by a counter suffix [" (n)"], the
    evaluation of every citation is in the returned mapping, the first
    occurrence of a raw text under the raw text itself and its [k]-th
    further occurrence under the raw text followed by [" (k)"]; the keys
    of different citations differ. *)
Theorem duplicate_keys (env : Env) (name text : string)
    (metadata : gmap string string) (extraction_model evaluation_model : string)
    (w w1 w' : world) (cits : list EC.t) (ev : CE.t) :
  extract_citations_with_llm env text extraction_model w = (Returned cits, w1) ->
  evaluate_complaint env name text metadata extraction_model evaluation_model w
  = (Returned ev, w') ->
  no_suffixed_raw cits ->
  (forall i cit, cits !! i = Some cit ->
     exists ce,
       CE.citations ev
         !! occurrence_key (EC.raw_text cit) (occurrences (EC.raw_text cit) (take i cits))
       = Some ce /\ evaluates cit ce) /\
  (forall i j a b, cits !! i = Some a -> cits !! j = Some b -> i <> j ->
     key_of cits i a <> key_of cits j b) /\
  occurrence_key "X" 0 = "X" /\ occurrence_key "X" 1 = "X (1)" /\
  occurrence_key "X" 2 = "X (2)".
Proof.
  intros Hextract Hrun Hno. unfold evaluate_complaint, bind in Hrun.
  rewrite Hextract in Hrun.
  apply (evaluate_citations_keyed env cits _ _ []) in Hrun;
    [|done | done | apply keyed_nil].
  destruct Hrun as [Hpresent _]. simpl in Hpresent.
  split; [exact Hpresent|]. split; [|done].
  assert (Hlt : forall i j a b, cits !! i = Some a -> cits !! j = Some b ->
            (i < j)%nat -> key_of cits i a <> key_of cits j b).
  { intros i j a b Hi Hj Hij Heq.
    apply (occurrence_key_joint cits a b) in Heq as [Hraw Hocc];
      [|by eauto using list_elem_of_lookup_2 ..].
    pose proof (lookup_lt_Some _ _ _ Hj).
    assert (Hi' : take j cits !! i = Some a) by (by rewrite lookup_take_lt).
    pose proof (occurrences_take_lt (take j cits) i a Hi') as H'.
    rewrite take_take, Nat.min_l in H' by lia. rewrite Hraw in *. lia. }
  intros i j a b Hi Hj Hij.
  destruct (Nat.lt_trichotomy i j) as [?|[?|?]]; [by eapply Hlt | done |].
  intros Heq. by eapply (Hlt j i b a).
Qed.

Definition repeated_citations : list EC.t :=
  [ EC.mk "Rule 12(b)" "statute" "Defenses are raised by motion.";
    EC.mk "Rule 12(b)" "statute" "The motion precedes the answer." ].

Lemma duplicate_keys_witness :
  exists ev w',
    evaluate_complaint (Fixture.env repeated_citations) "complaint_003.txt"
      "COMPLAINT ..." ∅ "gpt-5-mini" "gpt-5-mini" Fixture.empty_world
    = (Returned ev, w') /\
    (exists ce, CE.citations ev !! "Rule 12(b)" = Some ce /\
                CitationEvaluation.proposition ce = "Defenses are raised by motion.") /\
    (exists ce, CE.citations ev !! "Rule 12(b) (1)" = Some ce /\
                CitationEvaluation.proposition ce = "The motion precedes the answer.").
Proof.
  assert (Hno : no_suffixed_raw repeated_citations).
  { assert (Hraw : forall x, x ∈ repeated_citations -> EC.raw_text x = "Rule 12(b)").
    { intros x Hx. apply elem_of_cons in Hx as [->|Hx]; [done|].
      apply elem_of_cons in Hx as [->|Hx]; [done|]. by apply elem_of_nil in Hx. }
    intros a b n Ha Hb _. rewrite (Hraw a Ha), (Hraw b Hb).
    intros H. by apply eq_sym, suffixed_ne in H. }
  assert (Hrun : exists ev w',
             evaluate_complaint (Fixture.env repeated_citations) "complaint_003.txt"
               "COMPLAINT ..." ∅ "gpt-5-mini" "gpt-5-mini" Fixture.empty_world
             = (Returned ev, w')).
  { eexists _, _. vm_compute. reflexivity. }
  destruct Hrun as (ev & w' & Hrun). exists ev, w'. split; [exact Hrun|].
  destruct (duplicate_keys (Fixture.env repeated_citations) _ _ _ _ _ _
              (emit (EvExtract "gpt-5-mini" "COMPLAINT ...") Fixture.empty_world)
              _ repeated_citations _ eq_refl Hrun Hno) as (Hpresent & _).
  split.
  - destruct (Hpresent 0%nat _ eq_refl) as (ce & Hce & _ & _ & Hprop).
    exists ce. split; [exact Hce | exact Hprop].
  - destruct (Hpresent 1%nat _ eq_refl) as (ce & Hce & _ & _ & Hprop).
    exists ce. split; [exact Hce | exact Hprop].
Defined.

End KeyFacts.

(** * Further properties of the code *)

(** ** The retry policy: bounds and classification *)

Module RetryBounds.
Import Retry RetryFacts.

Lemma py_min_le_r (a b : Qc) : (py_min a b <= b)%Qc.
Proof.
  unfold py_min. case_decide as H; [apply Qcle_refl|].
  by apply Qcnot_lt_le.
Qed.

Lemma py_min_le_l (a b : Qc) : (py_min a b <= a)%Qc.
Proof.
  unfold py_min. case_decide as H; [by apply Qclt_le_weak | apply Qcle_refl].
Qed.

Lemma py_min_glb (a b c : Qc) : (c <= a)%Qc -> (c <= b)%Qc -> (c <= py_min a b)%Qc.
Proof. intros Ha Hb. unfold py_min. by case_decide. Qed.

Lemma py_min_mono (a a' b : Qc) : (a <= a')%Qc -> (py_min a b <= py_min a' b)%Qc.
Proof.
  intros Ha. apply py_min_glb; [|apply py_min_le_r].
  eapply Qcle_trans; [apply py_min_le_l | done].
Qed.

Lemma pow2_nonneg attempt : (0 <= pow2 attempt)%Qc.
Proof.
  unfold pow2. rewrite <- Z2Qc_inj_0. apply (proj1 (Z2Qc_inj_le _ _)).
  apply Z.pow_nonneg. lia.
Qed.

Lemma pow2_mono (k : nat) : (pow2 (Z.of_nat k) <= pow2 (Z.of_nat (S k)))%Qc.
Proof.
  unfold pow2. apply (proj1 (Z2Qc_inj_le _ _)).
  apply Z.pow_le_mono_r; lia.
Qed.

Lemma two_nonneg : (0 <= 2)%Qc.
Proof. rewrite <- Z2Qc_inj_0, <- Z2Qc_inj_2. by apply (proj1 (Z2Qc_inj_le _ _)). Qed.

(** Whatever the handler decides to sleep is capped by [max_delay]. *)
Lemma handle_capped base_delay max_delay attempt e d :
  handle base_delay max_delay attempt e = Some d -> (d <= max_delay)%Qc.
Proof.
  unfold handle. intros H.
  repeat case_match; simplify_eq; apply py_min_le_r.
Qed.

Lemma handle_nonneg base_delay max_delay attempt e d :
  (0 <= base_delay)%Qc -> (0 <= max_delay)%Qc ->
  handle base_delay max_delay attempt e = Some d -> (0 <= d)%Qc.
Proof.
  intros Hb Hm. unfold handle. intros H.
  assert (H1 : (0 <= base_delay * pow2 attempt)%Qc).
  { rewrite <- (Qcmult_0_l (pow2 attempt)).
    apply Qcmult_le_compat_r; [done | apply pow2_nonneg]. }
  assert (H2 : (0 <= base_delay * pow2 attempt * 2)%Qc).
  { rewrite <- (Qcmult_0_l 2). apply Qcmult_le_compat_r; [done | apply two_nonneg]. }
  repeat case_match; simplify_eq; by apply py_min_glb.
Qed.


Section Generic.
Context {W T : Type}.
Variable sleep : Qc -> W -> W.
Variable fn : M W T.

(** X3: with a negative [max_retries] the loop body never runs: the
    operation is not invoked, nothing is slept, and [raise None] fails. *)
Theorem negative_retries_never_invoke (max_retries : Z) (base_delay max_delay : Qc) (w : W) :
  max_retries < 0 ->
  retry_with_backoff sleep fn max_retries base_delay max_delay w = (Raised RaiseNone, w).
Proof.
  intros Hneg. unfold retry_with_backoff, py_range.
  replace (Z.to_nat (max_retries + 1)) with 0%nat by lia. reflexivity.
Qed.

End Generic.

Lemma negative_retries_never_invoke_witness :
  retry_with_backoff record_sleep (scripted fails_twice) (-1) (Qc_of_Z 1) (Qc_of_Z 30) []
  = (Raised RaiseNone, []).
Proof. apply negative_retries_never_invoke. lia. Defined.

Section Scripted.
Context {T : Type}.
Variable script : nat -> outcome T.
Variables (max_retries : Z) (base_delay max_delay : Qc).

Local Abbreviation run_loop :=
  (retry_loop record_sleep (scripted script) max_retries base_delay max_delay).

(** One round of the loop on the instrumented operation. *)
Lemma run_step a rest last tr :
  run_loop (Z.of_nat a :: rest) last tr
  = match script (invocations tr) with
    | Returned v => (Returned v, tr ++ [Invoked])
    | OutOfFuel => (OutOfFuel, tr ++ [Invoked])
    | Raised e =>
        match handle base_delay max_delay (Z.of_nat a) e with
        | None => (Raised e, tr ++ [Invoked])
        | Some d =>
            run_loop rest (Some e)
              (if Z.of_nat a <? max_retries
               then record_sleep d (tr ++ [Invoked]) else tr ++ [Invoked])
        end
    end.
Proof.
  simpl. unfold scripted at 1.
  destruct (script (invocations tr)); try done; by destruct (handle _ _ _ _).
Qed.

(** What a run adds to a trace: [k] invocations and the delays [ds]. *)
Definition adds (tr tr' : list probe) (k : nat) (ds : list Qc) : Prop :=
  invocations tr' = (invocations tr + k)%nat /\
  slept tr' = slept tr ++ ds /\
  S (length ds) = k /\
  Forall (fun d => (d <= max_delay)%Qc) ds /\
  ((0 <= base_delay)%Qc -> (0 <= max_delay)%Qc -> Forall (fun d => (0 <= d)%Qc) ds).

Lemma adds_one tr : adds tr (tr ++ [Invoked]) 1 [].
Proof.
  unfold adds. rewrite invocations_app, slept_app. simpl. rewrite app_nil_r.
  split; [done|]. split; [done|]. split; [done|].
  split; [constructor | intros; constructor].
Qed.

(** From any attempt on, the rest of the loop invokes the operation [k]
    more times, [1 <= k <=] the attempts left, and sleeps [k - 1] times,
    each sleep within the cap. *)
Lemma loop_counts n :
  forall a last tr,
    Z.of_nat (a + n) = max_retries ->
    exists k ds, (1 <= k <= S n)%nat /\
      adds tr (run_loop (map Z.of_nat (seq a (S n))) last tr).2 k ds.
Proof.
  induction n as [|n IH]; intros a last tr Hlast.
  - exists 1%nat, []. split; [lia|].
    change (map Z.of_nat (seq a 1)) with [Z.of_nat a]. rewrite run_step.
    destruct (script (invocations tr)) as [v|e|]; [apply adds_one | | apply adds_one].
    destruct (handle base_delay max_delay (Z.of_nat a) e) as [d|]; [|apply adds_one].
    destruct (Z.ltb_spec (Z.of_nat a) max_retries); [lia|]. apply adds_one.
  - change (map Z.of_nat (seq a (S (S n))))
      with (Z.of_nat a :: map Z.of_nat (seq (S a) (S n))).
    rewrite run_step.
    destruct (script (invocations tr)) as [v|e|];
      [exists 1%nat, []; split; [lia | apply adds_one] | |
       exists 1%nat, []; split; [lia | apply adds_one]].
    destruct (handle base_delay max_delay (Z.of_nat a) e) as [d|] eqn:Hd;
      [|exists 1%nat, []; split; [lia | apply adds_one]].
    destruct (Z.ltb_spec (Z.of_nat a) max_retries); [|lia].
    destruct (IH (S a) (Some e) (record_sleep d (tr ++ [Invoked])) ltac:(lia))
      as (k & ds & Hk & Hinv & Hds & Hlen & Hcap & Hpos).
    exists (S k), (d :: ds). split; [lia|]. unfold adds.
    rewrite Hinv, Hds. unfold record_sleep.
    rewrite !invocations_app, !slept_app. simpl. rewrite <- !app_assoc. simpl.
    change (invocations [Invoked]) with 1%nat. change (invocations [Slept d]) with 0%nat.
    split; [lia|]. split; [done|]. split; [lia|]. split.
    + constructor; [by eapply handle_capped | done].
    + intros Hb Hm. constructor; [exact (handle_nonneg _ _ _ _ _ Hb Hm Hd) | by apply Hpos].
Qed.

End Scripted.

(** X1: for any operation and any [max_retries >= 0], the operation is
    invoked at least once and at most [max_retries + 1] times, and the
    policy sleeps exactly once between two consecutive invocations. *)
Theorem retry_invocation_bounds {T} (script : nat -> outcome T)
    (max_retries : Z) (base_delay max_delay : Qc) :
  0 <= max_retries ->
  let trace :=
    (retry_with_backoff record_sleep (scripted script)
       max_retries base_delay max_delay []).2 in
  (1 <= invocations trace <= Z.to_nat max_retries + 1)%nat /\
  S (length (slept trace)) = invocations trace.
Proof.
  intros Hmax trace. subst trace. unfold retry_with_backoff, py_range.
  replace (Z.to_nat (max_retries + 1)) with (S (Z.to_nat max_retries)) by lia.
  destruct (loop_counts script max_retries base_delay max_delay
              (Z.to_nat max_retries) 0 None [] ltac:(lia))
    as (k & ds & Hk & Hinv & Hds & Hlen & _).
  rewrite Hinv, Hds. change (invocations []) with 0%nat. simpl. lia.
Qed.

Lemma retry_invocation_bounds_witness :
  let trace :=
    (retry_with_backoff record_sleep (scripted fails_twice) 3
       (Qc_of_Z 1) (Qc_of_Z 30) []).2 in
  (1 <= invocations trace <= 4)%nat /\ S (length (slept trace)) = invocations trace.
Proof. apply (retry_invocation_bounds fails_twice 3). lia. Defined.

(** X2: every delay the policy sleeps is at most [max_delay]; with
    non-negative [base_delay] and [max_delay] it is also non-negative, so
    [time.sleep] is never given a negative length. *)
Theorem retry_delays_capped {T} (script : nat -> outcome T)
    (max_retries : Z) (base_delay max_delay : Qc) :
  (0 <= base_delay)%Qc -> (0 <= max_delay)%Qc ->
  Forall (fun d => (0 <= d)%Qc /\ (d <= max_delay)%Qc)
    (slept (retry_with_backoff record_sleep (scripted script)
              max_retries base_delay max_delay []).2).
Proof.
  intros Hb Hm. unfold retry_with_backoff, py_range.
  destruct (Z.to_nat (max_retries + 1)) as [|n] eqn:Hn; [by constructor|].
  destruct (loop_counts script max_retries base_delay max_delay n 0 None [] ltac:(lia))
    as (k & ds & _ & _ & Hds & _ & Hcap & Hpos).
  rewrite Hds. simpl. apply Forall_and. split; [by apply Hpos | done].
Qed.

Lemma retry_delays_capped_witness :
  Forall (fun d => (0 <= d)%Qc /\ (d <= Qc_of_Z 30)%Qc)
    (slept (retry_with_backoff record_sleep (scripted fails_twice) 3
              (Qc_of_Z 1) (Qc_of_Z 30) []).2).
Proof.
  apply retry_delays_capped; rewrite <- Z2Qc_inj_0; by apply (proj1 (Z2Qc_inj_le _ _)).
Defined.



Lemma handle_schedule base_delay max_delay (k : nat) e d :
  handle base_delay max_delay (Z.of_nat k) e = Some d ->
  d = schedule base_delay max_delay k e.
Proof.
  intros H.
  destruct (handle base_delay max_delay (Z.of_nat k) e) as [d'|] eqn:Hh; [|done].
  injection H as ->.
  assert (Hre : retryable e).
  { destruct e as [s| | | | | | | |]; simpl in *; try done.
    destruct (Z.eqb_spec s 429); [lia|].
    destruct (Z.eqb_spec s 400); [lia|].
    rewrite Z.geb_leb in Hh. destruct (Z.leb_spec 500 s); [lia | done]. }
  rewrite (handle_retryable base_delay max_delay k e Hre) in Hh. by injection Hh.
Qed.

(** X5: the delay the handler computes never decreases from one attempt
    to the next, and a rate-limited failure (429) waits at least as long
    as any other retried failure at the same attempt (non-negative
    [base_delay]). *)
Theorem backoff_monotone (base_delay max_delay : Qc) (k : nat) (e : exn) (d d' d429 : Qc) :
  (0 <= base_delay)%Qc ->
  handle base_delay max_delay (Z.of_nat k) e = Some d ->
  handle base_delay max_delay (Z.of_nat (S k)) e = Some d' ->
  handle base_delay max_delay (Z.of_nat k) (HTTPStatusError 429) = Some d429 ->
  (d <= d')%Qc /\ (d <= d429)%Qc.
Proof.
  intros Hb Hd Hd' H429.
  apply handle_schedule in Hd, Hd', H429. subst d d' d429.
  assert (Hstep : (base_delay * pow2 (Z.of_nat k) <= base_delay * pow2 (Z.of_nat (S k)))%Qc).
  { apply Qcmult_le_mono_nonneg_l; [done | apply pow2_mono]. }
  assert (Hnn : (0 <= base_delay * pow2 (Z.of_nat k))%Qc).
  { rewrite <- (Qcmult_0_l (pow2 (Z.of_nat k))).
    apply Qcmult_le_compat_r; [done | apply pow2_nonneg]. }
  assert (Hdouble : (base_delay * pow2 (Z.of_nat k)
                     <= base_delay * pow2 (Z.of_nat k) * 2)%Qc).
  { rewrite <- (Qcmult_1_r (base_delay * pow2 (Z.of_nat k))) at 1.
    apply Qcmult_le_mono_nonneg_l; [done|].
    rewrite <- Z2Qc_inj_2, <- Z2Qc_inj_1. by apply (proj1 (Z2Qc_inj_le _ _)). }
  unfold schedule. fold (pow2 (Z.of_nat k)). fold (pow2 (Z.of_nat (S k))).
  split.
  - destruct (rate_limited e); apply py_min_mono; [|done].
    apply Qcmult_le_compat_r; [done | apply two_nonneg].
  - simpl. destruct (rate_limited e); [apply Qcle_refl | by apply py_min_mono].
Qed.

Lemma backoff_monotone_witness :
  exists d d' d429,
    handle (Qc_of_Z 1) (Qc_of_Z 30) 2 (HTTPStatusError 500) = Some d /\
    handle (Qc_of_Z 1) (Qc_of_Z 30) 3 (HTTPStatusError 500) = Some d' /\
    handle (Qc_of_Z 1) (Qc_of_Z 30) 2 (HTTPStatusError 429) = Some d429 /\
    (d <= d')%Qc /\ (d <= d429)%Qc.
Proof.
  eexists _, _, _. split; [reflexivity|]. split; [reflexivity|]. split; [reflexivity|].
  apply (backoff_monotone (Qc_of_Z 1) (Qc_of_Z 30) 2 (HTTPStatusError 500));
    [|reflexivity..].
  rewrite <- Z2Qc_inj_0. by apply (proj1 (Z2Qc_inj_le _ _)).
Defined.

End RetryBounds.

(** ** The cache and the validator: round trips and footprint *)

Module ValidatorMore.
Import Validator ValidatorFacts.
Local Open Scope string_scope.
Local Open Scope list_scope.
Local Open Scope Z_scope.

(** Two raw texts that agree once lowered and stripped. *)
Definition same_normal (a b : string) : Prop :=
  PyStr.strip (PyStr.lower a) = PyStr.strip (PyStr.lower b).

Lemma same_normal_key env a b : same_normal a b -> make_key env a = make_key env b.
Proof. unfold make_key, same_normal. by intros ->. Qed.

Lemma cache_get_set env citation citation' b i n o e w :
  same_normal (Citation.raw_text citation') (Citation.raw_text citation) ->
  cache_get env citation' (cache_set env citation b i n o e w)
  = Some (CacheEntry.mk (make_key env (Citation.raw_text citation)) b i n o e
            (now env (log w))).
Proof.
  intros Hsame. unfold cache_get, cache_set. simpl.
  rewrite (same_normal_key env _ _ Hsame), lookup_insert_eq. done.
Qed.

(** X6: cache round trip.  What [set] stores for one citation, [get]
    returns for every citation whose raw text is the same up to case and
    surrounding whitespace, stamped with the time of the [set]. *)
Theorem cache_round_trip (env : Env) (citation citation' : Citation.t) (is_valid : bool)
    (courtlistener_id case_name opinion_text error : option string) (w : world) :
  same_normal (Citation.raw_text citation') (Citation.raw_text citation) ->
  cache_get env citation'
    (cache_set env citation is_valid courtlistener_id case_name opinion_text error w)
  = Some (CacheEntry.mk (make_key env (Citation.raw_text citation)) is_valid
            courtlistener_id case_name opinion_text error (now env (log w))).
Proof. apply cache_get_set. Qed.

Lemma cache_round_trip_witness :
  CacheEntry.courtlistener_id <$>
    cache_get (Fixture.env []) (Citation.new "  SMITH v. Jones, 123 F.3d 456 ")
      (cache_set (Fixture.env []) (Citation.new "Smith v. Jones, 123 F.3d 456")
         true (Some "123") None None None Fixture.empty_world)
  = Some (Some "123").
Proof.
  rewrite (cache_round_trip (Fixture.env [])
             (Citation.new "Smith v. Jones, 123 F.3d 456")
             (Citation.new "  SMITH v. Jones, 123 F.3d 456 ")).
  - reflexivity.
  - reflexivity.
Defined.

(** X7: [set] writes one slot.  A citation with another key reads what
    it read before, and a second [set] for the same key replaces the
    first. *)
Theorem cache_set_one_slot (env : Env) (citation other : Citation.t)
    (b1 b2 : bool) (i1 n1 o1 e1 i2 n2 o2 e2 : option string) (w : world) :
  make_key env (Citation.raw_text other) <> make_key env (Citation.raw_text citation) ->
  cache_get env other (cache_set env citation b1 i1 n1 o1 e1 w) = cache_get env other w /\
  cache_get env citation
    (cache_set env citation b2 i2 n2 o2 e2 (cache_set env citation b1 i1 n1 o1 e1 w))
  = cache_get env citation (cache_set env citation b2 i2 n2 o2 e2 w) /\
  log (cache_set env citation b1 i1 n1 o1 e1 w) = log w.
Proof.
  intros Hne. unfold cache_get, cache_set. simpl.
  rewrite lookup_insert_ne by done. by rewrite !lookup_insert_eq.
Qed.

Lemma cache_set_one_slot_witness :
  cache_get (Fixture.env []) (Citation.new "Doe v. Roe, 1 U.S. 1")
    (cache_set (Fixture.env []) (Citation.new "Smith v. Jones, 123 F.3d 456")
       true (Some "123") None None None Fixture.empty_world)
  = None.
Proof.
  destruct (cache_set_one_slot (Fixture.env [])
              (Citation.new "Smith v. Jones, 123 F.3d 456")
              (Citation.new "Doe v. Roe, 1 U.S. 1")
              true true (Some "123") None None None None None None None
              Fixture.empty_world) as (Hother & _).
  - by vm_compute.
  - rewrite Hother. reflexivity.
Defined.

(** *** What a call adds to the world *)

(** [grows n w w']: the cache is untouched and the log is extended by
    events of which at most [n] are network calls. *)
Definition grows (n : nat) (w w' : world) : Prop :=
  cache w' = cache w /\
  exists l, log w' = log w ++ l /\ (network_calls l <= n)%nat.

Lemma network_calls_app l1 l2 :
  network_calls (l1 ++ l2) = (network_calls l1 + network_calls l2)%nat.
Proof. unfold network_calls. by rewrite List.filter_app, length_app. Qed.

Lemma grows_refl w : grows 0 w w.
Proof. split; [done|]. exists []. by rewrite app_nil_r. Qed.

Lemma grows_trans n m w1 w2 w3 :
  grows n w1 w2 -> grows m w2 w3 -> grows (n + m) w1 w3.
Proof.
  intros [Hc1 (l1 & Hl1 & Hn1)] [Hc2 (l2 & Hl2 & Hn2)]. split; [congruence|].
  exists (l1 ++ l2). rewrite Hl2, Hl1, app_assoc, network_calls_app. split; [done | lia].
Qed.

Lemma grows_weaken n m w w' : (n <= m)%nat -> grows n w w' -> grows m w w'.
Proof. intros Hnm [Hc (l & Hl & Hn)]. split; [done|]. exists l. split; [done | lia]. Qed.

Lemma grows_emit e w : grows (if is_network e then 1 else 0) w (emit e w).
Proof.
  split; [done|]. exists [e]. split; [done|].
  unfold network_calls. simpl. by destruct (is_network e).
Qed.

Section Retried.
Context {T : Type}.
Variable fn : M world T.
Hypothesis fn_grows : forall w, grows 1 w (fn w).2.

(** The retry loop around an operation that makes one call per
    invocation makes at most one call per attempt. *)
Lemma retry_loop_grows max_retries base_delay max_delay attempts :
  forall last w,
    grows (length attempts) w
      (Retry.retry_loop sleep fn max_retries base_delay max_delay attempts last w).2.
Proof.
  induction attempts as [|attempt rest IH]; intros last w.
  - simpl. destruct last; apply grows_refl.
  - simpl. pose proof (fn_grows w) as Hfn.
    destruct (fn w) as [[v|e|] w1]; simpl in Hfn;
      [by eapply grows_weaken; [|exact Hfn]; lia | |
       by eapply grows_weaken; [|exact Hfn]; lia].
    destruct (Retry.handle base_delay max_delay attempt e) as [d|];
      [|by eapply grows_weaken; [|exact Hfn]; lia].
    apply (grows_trans 1 (length rest) w w1); [done|].
    eapply (grows_weaken (0 + length rest)); [lia|].
    eapply grows_trans; [|apply IH].
    destruct (attempt <? max_retries); [apply (grows_emit (EvSleep d)) | apply grows_refl].
Qed.

Lemma retry_default_grows w :
  grows 4 w (Retry.retry_with_backoff_default sleep fn w).2.
Proof. apply (retry_loop_grows 3 _ _ (Retry.py_range 4)). Qed.

End Retried.

Section WithEnv.
Variable env : Env.

Lemma lookup_citation_grows raw w : grows 4 w (lookup_citation env raw w).2.
Proof.
  unfold lookup_citation, bind.
  pose proof (retry_default_grows (do_lookup env raw)
                (fun w => grows_emit (EvLookup raw) w) w) as H.
  destruct (Retry.retry_with_backoff_default sleep (do_lookup env raw) w)
    as [[results|e|] w1]; simpl in *; [|done..].
  by repeat case_match.
Qed.

Lemma extract_opinion_text_grows cluster w :
  grows 4 w (_extract_opinion_text env cluster w).2.
Proof.
  assert (Htext : forall markup w0, grows 4 w0 (text_content env markup w0).2).
  { intros markup w0. unfold text_content.
    destruct (html_text_content env markup); simpl;
      (eapply grows_weaken; [|apply grows_refl]; lia). }
  assert (Hret : forall (v : option string) w0, grows 4 w0 (ret v w0).2).
  { intros v w0. simpl. eapply grows_weaken; [|apply grows_refl]. lia. }
  unfold _extract_opinion_text.
  destruct (default [] (Cluster.sub_opinions cluster)) as [|url rest].
  - destruct (Cluster.html_with_citations cluster); [apply Htext | apply Hret].
  - unfold bind.
    pose proof (retry_default_grows (fetch_opinion env url)
                  (fun w => grows_emit (EvFetchOpinion url) w) w) as H.
    destruct (Retry.retry_with_backoff_default sleep (fetch_opinion env url) w)
      as [[data|e|] w1]; simpl in *; [|done..].
    destruct (OpinionData.html_with_citations data) as [markup|]; simpl.
    + unfold text_content. by destruct (html_text_content env markup).
    + done.
Qed.


End WithEnv.


(** X9: what the cache replays.  After a validation that went to the
    lookup service and returned, validating any citation with the same
    normalised raw text is answered from the cache, with the world
    unchanged, and
    - after a found lookup: valid, with the same identifier and opinion
      text, the stored case name when that is non-empty (the citation's
      own otherwise) and the citation's validation error untouched;
    - after a lookup that found nothing: invalid, identifier and opinion
      text reset to [None], case name untouched, and the error "Not found"
      where the first validation had set
      "Citation not found in CourtListener". *)
Theorem cache_replay (env : Env) (c c' c1 : Citation.t) (w w1 : world) :
  cache_get env c w = None ->
  validate_citation env c w = (Returned tt, c1, w1) ->
  same_normal (Citation.raw_text c') (Citation.raw_text c) ->
  exists c2,
    validate_citation env c' w1 = (Returned tt, c2, w1) /\
    Citation.is_valid c2 = Citation.is_valid c1 /\
    (Citation.is_valid c1 = Some true ->
     Citation.courtlistener_id c2 = Citation.courtlistener_id c1 /\
     Citation.opinion_text c2 = Citation.opinion_text c1 /\
     Citation.case_name c2
     = (if PyStr.truthy (Citation.case_name c1)
        then Citation.case_name c1 else Citation.case_name c') /\
     Citation.validation_error c2 = Citation.validation_error c') /\
    (Citation.is_valid c1 = Some false ->
     Citation.courtlistener_id c2 = None /\
     Citation.opinion_text c2 = None /\
     Citation.case_name c2 = Citation.case_name c' /\
     Citation.validation_error c1 = Some "Citation not found in CourtListener" /\
     Citation.validation_error c2 = Some "Not found").
Proof.
  intros Hmiss Hrun Hsame. unfold validate_citation in Hrun. rewrite Hmiss in Hrun.
  destruct (lookup_citation env (Citation.raw_text c) w) as [[found|e|] w0]; [|done..].
  destruct (truthy_cluster found) as [cluster|].
  - destruct (_extract_opinion_text env cluster w0) as [[opinion|e|] w2]; [|done..].
    injection Hrun as <- <-.
    unfold validate_citation.
    rewrite cache_get_set by (by case_match).
    cbn [CacheEntry.is_valid CacheEntry.courtlistener_id CacheEntry.opinion_text
         CacheEntry.case_name CacheEntry.error PyStr.truthy].
    set (c3 := if (negb (PyStr.truthy (Citation.case_name c))
                   && PyStr.truthy (Cluster.case_name cluster))%bool
               then _ else _).
    assert (Hid : Citation.is_valid c3 = Some true) by (subst c3; by case_match).
    eexists. split; [reflexivity|].
    destruct (PyStr.truthy (Citation.case_name c3)) eqn:Hname; simpl;
      rewrite ?Hname, Hid; (split; [done|]); (split; [done | by intros [=]]).
  - injection Hrun as <- <-.
    unfold validate_citation.
    rewrite cache_get_set by done.
    eexists. split; [reflexivity|]. split; [done|]. split; [done|].
    intros _. done.
Qed.

Lemma cache_replay_witness :
  exists c1 w1 c2,
    validate_citation (Fixture.env []) (Citation.new "Doe v. Roe, 1 U.S. 1")
      Fixture.empty_world = (Returned tt, c1, w1) /\
    validate_citation (Fixture.env []) (Citation.new " doe v. roe, 1 u.s. 1") w1
    = (Returned tt, c2, w1) /\
    Citation.validation_error c1 = Some "Citation not found in CourtListener" /\
    Citation.validation_error c2 = Some "Not found".
Proof.
  assert (Hrun : exists c1 w1,
             validate_citation (Fixture.env []) (Citation.new "Doe v. Roe, 1 U.S. 1")
               Fixture.empty_world = (Returned tt, c1, w1)
             /\ Citation.is_valid c1 = Some false).
  { eexists _, _. split; vm_compute; reflexivity. }
  destruct Hrun as (c1 & w1 & Hrun & Hinvalid).
  destruct (cache_replay (Fixture.env []) (Citation.new "Doe v. Roe, 1 U.S. 1")
              (Citation.new " doe v. roe, 1 u.s. 1") c1 Fixture.empty_world w1
              eq_refl Hrun eq_refl) as (c2 & Hagain & _ & _ & Hnot).
  destruct (Hnot Hinvalid) as (_ & _ & _ & He1 & He2).
  by exists c1, w1, c2.
Defined.

(** *** The batch *)

Section Batch.
Variable env : Env.

(** [validate_citation] writes the validation fields only. *)
Lemma validate_citation_keeps citation w o citation' w' :
  validate_citation env citation w = (o, citation', w') ->
  Citation.raw_text citation' = Citation.raw_text citation /\
  Citation.court citation' = Citation.court citation /\
  Citation.volume citation' = Citation.volume citation /\
  Citation.reporter citation' = Citation.reporter citation /\
  Citation.page citation' = Citation.page citation /\
  Citation.year citation' = Citation.year citation.
Proof.
  unfold validate_citation.
  destruct (cache_get env citation w) as [cached|].
  { intros [= <- <- <-]. by repeat case_match. }
  destruct (lookup_citation env (Citation.raw_text citation) w) as [[found|e|] w1];
    [|by intros [= <- <- <-]..].
  destruct (truthy_cluster found) as [cluster|]; [|by intros [= <- <- <-]].
  destruct (_extract_opinion_text env cluster w1) as [[opinion|e|] w2];
    intros [= <- <- <-]; by case_match.
Qed.

Lemma validate_citations_settled citations :
  Forall (fun c => skipped c = true) citations ->
  forall w, validate_citations env citations w = (Returned tt, citations, w).
Proof.
  induction 1 as [|c rest Hc _ IH]; intros w; [done|].
  simpl. by rewrite Hc, IH.
Qed.

(** After a normal return of the batch, citation by citation: the raw
    text and the court are those of the input, a skipped citation is the
    input itself, and every citation is settled (it is a statute or its
    validity is resolved). *)
Lemma validate_citations_returned citations :
  forall w citations' w',
    validate_citations env citations w = (Returned tt, citations', w') ->
    Forall2 (fun c c' =>
               Citation.raw_text c' = Citation.raw_text c /\
               Citation.court c' = Citation.court c /\
               (skipped c = true -> c' = c) /\
               skipped c' = true)
      citations citations'.
Proof.
  induction citations as [|c rest IH]; intros w citations' w'.
  - intros [= <- <-]. constructor.
  - simpl. destruct (skipped c) eqn:Hskip.
    + destruct (validate_citations env rest w) as [[o rest'] w1] eqn:Hrest.
      intros [= -> <- <-]. constructor; [done | by eapply IH].
    + destruct (validate_citation env c w) as [[[[]| |] c1] w1] eqn:Hc; [|done..].
      destruct (validate_citations env rest w1) as [[o rest'] w2] eqn:Hrest.
      intros [= -> <- <-].
      destruct (validate_citation_keeps _ _ _ _ _ Hc) as (Hraw & Hcourt & _).
      apply validate_citation_returned in Hc as (_ & Hvalid & _).
      constructor; [|by eapply IH].
      split; [done|]. split; [done|]. split; [by rewrite Hskip|].
      unfold skipped. rewrite (bool_decide_eq_true_2 _ Hvalid). apply orb_true_r.
Qed.

End Batch.

(** X10: the batch [validate_citations].  When it returns, the list has
    the citations of the input in the same order, each with its raw text
    and court, the skipped ones untouched; and every citation that is not
    a statute has a resolved validity. *)
Theorem validate_citations_postcondition (env : Env) (citations citations' : list Citation.t)
    (w w' : world) :
  validate_citations env citations w = (Returned tt, citations', w') ->
  length citations' = length citations /\
  (forall i c c', citations !! i = Some c -> citations' !! i = Some c' ->
     Citation.raw_text c' = Citation.raw_text c /\
     Citation.court c' = Citation.court c /\
     (Citation.court c = Some "STATUTE" \/ is_Some (Citation.is_valid c) -> c' = c) /\
     (Citation.court c' <> Some "STATUTE" -> is_Some (Citation.is_valid c'))).
Proof.
  intros Hrun. apply validate_citations_returned in Hrun.
  split; [symmetry; by eapply Forall2_length|].
  intros i c c' Hi Hi'.
  destruct (Forall2_lookup_lr _ _ _ _ _ _ Hrun Hi Hi') as (Hraw & Hcourt & Hskip & Hset).
  split; [done|]. split; [done|]. split.
  - intros Hpre. apply Hskip. unfold skipped. destruct Hpre as [H|H].
    + by rewrite (bool_decide_eq_true_2 _ H).
    + rewrite (bool_decide_eq_true_2 _ H). apply orb_true_r.
  - intros Hcase. unfold skipped in Hset.
    apply orb_true_iff in Hset as [H|H]; apply bool_decide_eq_true_1 in H; done.
Qed.

Definition sample_batch : list Citation.t :=
  [ Citation.new "Smith v. Jones, 123 F.3d 456";
    Citation.mk "G.L. c. 231, s. 85" None None None None None (Some "STATUTE")
      None None None None;
    Citation.new "Doe v. Roe, 1 U.S. 1" ].

Lemma sample_batch_returns :
  exists citations' w',
    validate_citations (Fixture.env []) sample_batch Fixture.empty_world
    = (Returned tt, citations', w') /\
    (Citation.is_valid <$> citations') = [Some true; None; Some false] /\
    network_calls (log w') = 2%nat.
Proof. eexists _, _. split; [vm_compute; reflexivity|]. by vm_compute. Qed.

Lemma validate_citations_postcondition_witness :
  exists citations' w',
    validate_citations (Fixture.env []) sample_batch Fixture.empty_world
    = (Returned tt, citations', w') /\
    length citations' = 3%nat.
Proof.
  destruct sample_batch_returns as (citations' & w' & Hrun & _).
  exists citations', w'. split; [exact Hrun|].
  by destruct (validate_citations_postcondition _ _ _ _ _ Hrun) as [-> _].
Defined.

(** X11: the batch is idempotent.  Running it again on the list and the
    world it returned gives back the same list and the same world: no
    lookup, no cache write. *)
Theorem validate_citations_idempotent (env : Env) (citations citations' : list Citation.t)
    (w w' : world) :
  validate_citations env citations w = (Returned tt, citations', w') ->
  validate_citations env citations' w' = (Returned tt, citations', w').
Proof.
  intros Hrun. apply validate_citations_returned in Hrun.
  apply validate_citations_settled.
  apply Forall2_Forall_r with (Q := fun c' => skipped c' = true) in Hrun; [done|].
  apply Forall_true. by intros c c' (_ & _ & _ & H).
Qed.

Lemma validate_citations_idempotent_witness :
  exists citations' w',
    validate_citations (Fixture.env []) sample_batch Fixture.empty_world
    = (Returned tt, citations', w') /\
    validate_citations (Fixture.env []) citations' w' = (Returned tt, citations', w').
Proof.
  destruct sample_batch_returns as (citations' & w' & Hrun & _).
  exists citations', w'. split; [exact Hrun|].
  exact (validate_citations_idempotent _ _ _ _ _ Hrun).
Defined.




End ValidatorMore.

(** ** The chunker: shape of the result *)

Module ChunkerMore.
Import Chunker PyFacts ChunkerFacts.

(** X13: for a text longer than the chunk size and [0 <= overlap <
    chunk_size], the chunker returns [ceil(len / (chunk_size - overlap))]
    windows; the window of index [k] is the slice
    [text[k*stride : k*stride + chunk_size]] with
    [stride = chunk_size - overlap]; every window is non-empty and no
    longer than [chunk_size]. *)
Theorem chunk_shape {A} (text : list A) (chunk_size overlap : Z) :
  chunk_size < py_len text ->
  0 <= overlap < chunk_size ->
  exists chunks,
    (forall fuel, (length text < fuel)%nat ->
       _chunk_text fuel text chunk_size overlap = Some chunks) /\
    py_len chunks
    = (py_len text + (chunk_size - overlap) - 1) / (chunk_size - overlap) /\
    (forall k chunk, chunks !! k = Some chunk ->
       chunk = py_slice text (Z.of_nat k * (chunk_size - overlap))
                 (Z.of_nat k * (chunk_size - overlap) + chunk_size) /\
       1 <= py_len chunk <= chunk_size).
Proof.
  intros Hlong [Ho Hlt].
  rewrite <- (Z2Nat.id chunk_size) in * by lia.
  rewrite <- (Z2Nat.id overlap) in * by lia.
  set (size := Z.to_nat chunk_size) in *. set (o := Z.to_nat overlap) in *.
  unfold py_len in *.
  assert (Hlt' : (o < size)%nat) by lia.
  exists (windows text size o). split; [|split].
  - intros fuel Hfuel. apply chunk_text_windows; lia.
  - unfold windows, window_count. rewrite length_map, length_seq.
    rewrite Nat2Z.inj_div. f_equal; lia.
  - intros k chunk Hk. unfold windows in Hk.
    rewrite list_lookup_fmap in Hk.
    destruct (seq 0 (window_count (length text) size o) !! k) as [k'|] eqn:Hseq;
      [|done].
    apply lookup_seq in Hseq as [-> Hkm]. simpl in Hk. injection Hk as <-.
    apply window_count_spec in Hkm; [|done].
    split.
    + replace (Z.of_nat k * (Z.of_nat size - Z.of_nat o))
        with (Z.of_nat (k * (size - o))) by lia.
      replace (Z.of_nat (k * (size - o)) + Z.of_nat size)
        with (Z.of_nat (k * (size - o) + size)) by lia.
      rewrite py_slice_nonneg. unfold window. f_equal. lia.
    + unfold window. rewrite length_take, length_drop. lia.
Qed.

Lemma chunk_shape_witness :
  exists chunks,
    _chunk_text 9 [1; 2; 3; 4; 5; 6; 7; 8] 4 1 = Some chunks /\
    py_len chunks = 3.
Proof.
  destruct (chunk_shape [1; 2; 3; 4; 5; 6; 7; 8] 4 1) as (chunks & Hrun & Hlen & _).
  - unfold py_len. simpl. lia.
  - lia.
  - exists chunks. split; [apply Hrun; simpl; lia | exact Hlen].
Defined.

(** X23: when the text is not empty and longer than the chunk size and
    the overlap is the chunk size or more, the chunker never returns: the
    start of the window does not advance, so no amount of fuel gives a
    result. *)
Theorem chunker_never_returns {A} (text : list A) (chunk_size overlap : Z) :
  chunk_size < py_len text -> 0 < py_len text -> chunk_size <= overlap ->
  forall fuel, _chunk_text fuel text chunk_size overlap = None.
Proof.
  intros Hlong Hne Hstride fuel. unfold _chunk_text.
  destruct (Z.leb_spec (py_len text) chunk_size) as [?|_]; [lia|].
  by apply ChunkerFacts.chunk_loop_stuck.
Qed.

Lemma chunker_never_returns_witness :
  _chunk_text 1000 (ChunkerFacts.chars "abcdef") 3 5 = None.
Proof. apply chunker_never_returns; unfold py_len; simpl; lia. Defined.

End ChunkerMore.

(** ** Proposition support: errors, verdict and footprint *)

Module SupportMore.
Import Evaluation SupportFacts.
Local Open Scope string_scope.
Local Open Scope list_scope.
Local Open Scope Z_scope.

Definition supports (r : PSR.t) : Prop := PSR.supports_proposition r = true.
Definition high (r : PSR.t) : Prop := PSR.confidence r = "high".

(** What the loop over the chunks has established when it ends. *)
Definition selected (best : option PSR.t) (all_results : list PSR.t) : Prop :=
  match best with
  | None => Forall (fun r => ~ supports r) all_results
  | Some b =>
      supports b /\
      (high b ->
       exists pre, all_results = pre ++ [b] /\
                   Forall (fun r => supports r -> ~ high r) pre) /\
      (~ high b ->
       exists pre post, all_results = pre ++ b :: post /\
                        Forall (fun r => ~ supports r) pre /\
                        Forall (fun r => supports r -> ~ high r) post)
  end.

(** What holds while it runs: the best result so far, if any, is the
    first supporting one and no supporting result so far is of high
    confidence. *)
Definition running (best : option PSR.t) (all_results : list PSR.t) : Prop :=
  match best with
  | None => Forall (fun r => ~ supports r) all_results
  | Some b =>
      supports b /\ ~ high b /\
      exists pre post, all_results = pre ++ b :: post /\
                       Forall (fun r => ~ supports r) pre /\
                       Forall (fun r => supports r -> ~ high r) post
  end.

Lemma running_selected best all_results : running best all_results -> selected best all_results.
Proof.
  destruct best as [b|]; [|done]. intros (Hs & Hh & Hrest).
  split; [done|]. split; [done | by intros _].
Qed.

Lemma high_eqb r : String.eqb (PSR.confidence r) "high" = true <-> high r.
Proof. unfold high. apply String.eqb_eq. Qed.

Section WithEnv.
Variable env : Env.

Lemma chunk_results_selected citation proposition model chunks :
  forall best all_results w best' all_results' w',
    running best all_results ->
    chunk_results env citation proposition model chunks best all_results w
    = (Returned (best', all_results'), w') ->
    selected best' all_results'.
Proof.
  induction chunks as [|chunk rest IH]; intros best all_results w best' all_results' w' Hrun.
  - intros [= <- <- <-]. by apply running_selected.
  - simpl.
    destruct (_evaluate_single_chunk env citation proposition chunk model w)
      as [[result|e|] w1]; [| |done].
    2:{ destruct e; try done. by apply IH. }
    destruct (PSR.supports_proposition result) eqn:Hsup.
    + destruct best as [b|].
      * destruct Hrun as (Hb & Hnb & pre & post & -> & Hpre & Hpost).
        destruct (String.eqb (PSR.confidence result) "high") eqn:Hhigh; simpl.
        -- assert (Hbh : String.eqb (PSR.confidence b) "high" = false).
           { apply not_true_is_false. by rewrite high_eqb. }
           rewrite Hbh. simpl. intros [= <- <- <-].
           apply high_eqb in Hhigh.
           split; [done|]. split; [|done]. intros _.
           exists (pre ++ b :: post). split; [done|].
           apply Forall_app. split.
           ++ eapply Forall_impl; [exact Hpre|]. by intros r Hr Hs.
           ++ constructor; [done | done].
        -- apply IH. split; [done|]. split; [done|].
           exists pre, (post ++ [result]). rewrite <- app_assoc. split; [done|].
           split; [done|]. apply Forall_app. split; [done|].
           constructor; [|done]. intros _. rewrite <- high_eqb. by rewrite Hhigh.
      * simpl in Hrun.
        destruct (String.eqb (PSR.confidence result) "high") eqn:Hhigh.
        -- intros [= <- <- <-]. apply high_eqb in Hhigh.
           split; [done|]. split; [|done]. intros _.
           exists all_results. split; [done|].
           eapply Forall_impl; [exact Hrun|]. by intros r Hr Hs.
        -- apply IH. split; [done|]. split.
           { rewrite <- high_eqb. by rewrite Hhigh. }
           exists all_results, []. split; [done|]. split; [done | constructor].
    + apply IH. destruct best as [b|].
      * destruct Hrun as (Hb & Hnb & pre & post & -> & Hpre & Hpost).
        split; [done|]. split; [done|].
        exists pre, (post ++ [result]). rewrite <- app_assoc. split; [done|].
        split; [done|]. apply Forall_app. split; [done|].
        constructor; [|done]. unfold supports. by rewrite Hsup.
      * simpl in *. apply Forall_app. split; [done|].
        constructor; [|done]. unfold supports. by rewrite Hsup.
Qed.

(** The loop never lets a [BadRequestError] out. *)
Lemma chunk_results_no_bad_request citation proposition model chunks :
  forall best all_results w message w',
    chunk_results env citation proposition model chunks best all_results w
    <> (Raised (BadRequestError message), w').
Proof.
  induction chunks as [|chunk rest IH]; intros best all_results w message w'; [done|].
  simpl.
  destruct (_evaluate_single_chunk env citation proposition chunk model w)
    as [[result|e|] w1]; [| |done].
  - repeat case_match; try done; try apply IH.
  - destruct e; try done; try apply IH.
Qed.

Lemma single_chunk_world citation proposition chunk model w :
  (_evaluate_single_chunk env citation proposition chunk model w).2
  = emit (EvSupport model citation proposition chunk) w.
Proof. unfold _evaluate_single_chunk. by repeat case_match. Qed.

(** The loop calls the evaluator on a prefix of the chunks, in order, and
    does nothing else. *)
Lemma chunk_results_world citation proposition model chunks :
  forall best all_results w,
    exists k,
      (chunk_results env citation proposition model chunks best all_results w).2
      = World.mk (cache w)
          (log w ++ (EvSupport model citation proposition <$> take k chunks)).
Proof.
  induction chunks as [|chunk rest IH]; intros best all_results w.
  - exists 0%nat. simpl. rewrite app_nil_r. by destruct w.
  - simpl. pose proof (single_chunk_world citation proposition chunk model w) as Hw.
    destruct (_evaluate_single_chunk env citation proposition chunk model w)
      as [o w1]. simpl in Hw. subst w1.
    assert (Hstop : forall (x : outcome (option PSR.t * list PSR.t)),
              exists k,
                (x, emit (EvSupport model citation proposition chunk) w).2
                = World.mk (cache w)
                    (log w ++ (EvSupport model citation proposition
                                 <$> take k (chunk :: rest)))).
    { intros x. by exists 1%nat. }
    assert (Hgo : forall b a,
              exists k,
                (chunk_results env citation proposition model rest b a
                   (emit (EvSupport model citation proposition chunk) w)).2
                = World.mk (cache w)
                    (log w ++ (EvSupport model citation proposition
                                 <$> take k (chunk :: rest)))).
    { intros b a. destruct (IH b a (emit (EvSupport model citation proposition chunk) w))
        as (k & ->). exists (S k). simpl. by rewrite <- app_assoc. }
    destruct o as [result|e|]; [|destruct e|]; try apply Hstop; try apply Hgo.
    repeat case_match; try apply Hstop; apply Hgo.
Qed.

End WithEnv.

(** X14: errors of [evaluate_proposition_support].  A result of the first
    call is returned as it is, after that single call.  And when the
    function raises a [BadRequestError], it is the error of the first
    call and its message names neither "token" nor "length" nor
    "context": a too-large request never surfaces, nor does any
    [BadRequestError] of a chunk. *)
Theorem support_error_policy (env : Env) (citation proposition opinion_text model : string)
    (w : world) :
  (forall r w1,
     _evaluate_single_chunk env citation proposition opinion_text model w = (Returned r, w1) ->
     evaluate_proposition_support env citation proposition opinion_text model w
     = (Returned r, w1)) /\
  (forall message w',
     evaluate_proposition_support env citation proposition opinion_text model w
     = (Raised (BadRequestError message), w') ->
     is_too_large message = false /\
     _evaluate_single_chunk env citation proposition opinion_text model w
     = (Raised (BadRequestError message), w')).
Proof.
  unfold evaluate_proposition_support. split.
  - by intros r w1 ->.
  - intros message w'.
    destruct (_evaluate_single_chunk env citation proposition opinion_text model w)
      as [[r|e|] w1]; [done| |done].
    destruct e; try done.
    destruct (is_too_large message0) eqn:Hlarge; [|by intros [= <- <-]].
    unfold chunked_fallback. destruct (default_chunks opinion_text) as [chunks|]; [|done].
    pose proof (chunk_results_no_bad_request env citation proposition model chunks
                  None [] w1 message w') as Hno.
    destruct (chunk_results env citation proposition model chunks None [] w1)
      as [[[best all_results]|e|] w2]; [done| |done].
    intros [= -> ->]. done.
Qed.

(** X15: the verdict of the fallback is the disjunction of the chunk
    verdicts: the result returned supports the proposition exactly when
    one of the results obtained does. *)
Theorem fallback_verdict (env : Env)
    (citation proposition opinion_text model message : string)
    (w w1 w2 : world) (chunks : list string)
    (best : option PSR.t) (all_results : list PSR.t) :
  _evaluate_single_chunk env citation proposition opinion_text model w
  = (Raised (BadRequestError message), w1) ->
  is_too_large message = true ->
  default_chunks opinion_text = Some chunks ->
  chunk_results env citation proposition model chunks None [] w1
  = (Returned (best, all_results), w2) ->
  exists r,
    evaluate_proposition_support env citation proposition opinion_text model w
    = (Returned r, w2) /\
    (PSR.supports_proposition r = true <->
     exists r', r' ∈ all_results /\ PSR.supports_proposition r' = true).
Proof.
  intros Hfirst Hlarge Hchunks Hloop.
  unfold evaluate_proposition_support, chunked_fallback.
  rewrite Hfirst, Hlarge, Hchunks, Hloop. eexists. split; [reflexivity|].
  pose proof (chunk_results_selected env _ _ _ _ _ _ _ _ _ _
                (Forall_nil_2 _ : running None []) Hloop) as Hsel.
  unfold select_result. destruct best as [b|].
  - destruct Hsel as (Hb & Hhigh & Hlow). simpl. split; [|done].
    intros _. exists b. split; [|done].
    destruct (decide (high b)) as [Hh|Hh].
    + destruct (Hhigh Hh) as (pre & -> & _). apply elem_of_app. right. by left.
    + destruct (Hlow Hh) as (pre & post & -> & _). apply elem_of_app. right. by left.
  - simpl in Hsel.
    assert (Hnone : ~ exists r', r' ∈ all_results /\ PSR.supports_proposition r' = true).
    { intros (r' & Hin & Hs). by apply (proj1 (Forall_forall _ _) Hsel r' Hin). }
    destruct (sort_by _ all_results) as [|r0 rest] eqn:Hsort; simpl.
    + split; [done | by intros H].
    + destruct (sort_by_head _ _ _ _ Hsort) as [Hin _].
      split; [|by intros H]. intros Hs. exfalso. apply Hnone. by exists r0.
Qed.

Lemma support_error_policy_witness :
  exists r w1,
    evaluate_proposition_support (Fixture.env []) "Smith v. Jones, 123 F.3d 456"
      "Defendants owe a duty of care." "The court held defendants owed a duty..."
      "gpt-5-mini" Fixture.empty_world = (Returned r, w1) /\
    PSR.supports_proposition r = true /\ length (log w1) = 1%nat.
Proof.
  destruct (support_error_policy (Fixture.env []) "Smith v. Jones, 123 F.3d 456"
              "Defendants owe a duty of care." "The court held defendants owed a duty..."
              "gpt-5-mini" Fixture.empty_world) as [Hpass _].
  eexists _, _. split; [apply Hpass; vm_compute; reflexivity|]. by vm_compute.
Defined.

(** The two-window opinion of [SupportFacts], asked about the proposition
    the test evaluator supports. *)
Definition duty : string := "Defendants owe a duty of care.".
Definition duty_result : PSR.t :=
  PSR.mk true "high" "The opinion states the duty." None.

Lemma full_window_supports :
  Fixture.support full_window duty = Returned (Some duty_result).
Proof. unfold Fixture.support. by rewrite full_window_length. Qed.

Lemma duty_first_call :
  _evaluate_single_chunk (Fixture.env []) "1 U.S. 1" duty long_opinion "gpt-5-mini"
    Fixture.empty_world
  = (Raised (BadRequestError "This model's maximum context length was exceeded"),
     emit (EvSupport "gpt-5-mini" "1 U.S. 1" duty long_opinion) Fixture.empty_world).
Proof.
  unfold _evaluate_single_chunk. cbn [parse_support Fixture.env].
  by rewrite long_opinion_too_large.
Qed.

Lemma duty_loop :
  chunk_results (Fixture.env []) "1 U.S. 1" duty "gpt-5-mini"
    [full_window; tail_window] None []
    (emit (EvSupport "gpt-5-mini" "1 U.S. 1" duty long_opinion) Fixture.empty_world)
  = (Returned (Some duty_result, [duty_result]),
     emit (EvSupport "gpt-5-mini" "1 U.S. 1" duty full_window)
       (emit (EvSupport "gpt-5-mini" "1 U.S. 1" duty long_opinion) Fixture.empty_world)).
Proof.
  unfold chunk_results, _evaluate_single_chunk. cbn [parse_support Fixture.env].
  by rewrite full_window_supports.
Qed.

Lemma fallback_verdict_witness :
  exists r w2,
    evaluate_proposition_support (Fixture.env []) "1 U.S. 1" duty long_opinion
      "gpt-5-mini" Fixture.empty_world = (Returned r, w2) /\
    PSR.supports_proposition r = true.
Proof.
  destruct (fallback_verdict (Fixture.env []) "1 U.S. 1" duty long_opinion "gpt-5-mini"
              _ _ _ _ _ _ _ duty_first_call eq_refl long_opinion_chunks duty_loop)
    as (r & Hrun & Hiff).
  exists r. eexists. split; [exact Hrun|].
  apply Hiff. exists duty_result. split; [by left | done].
Defined.

(** X16: which supporting result the fallback returns.  When a chunk
    supports the proposition, the result returned is a supporting result
    [b] with the note "[Evaluated in chunks] " before its reasoning, and
    - if [b] is of high confidence, it is the last result obtained (the
      loop stopped there) and no earlier supporting result was of high
      confidence;
    - otherwise [b] is the first supporting result and no later
      supporting result is of high confidence. *)
Theorem fallback_supporting_result (env : Env)
    (citation proposition opinion_text model message : string)
    (w w1 w2 : world) (chunks : list string) (b : PSR.t) (all_results : list PSR.t) :
  _evaluate_single_chunk env citation proposition opinion_text model w
  = (Raised (BadRequestError message), w1) ->
  is_too_large message = true ->
  default_chunks opinion_text = Some chunks ->
  chunk_results env citation proposition model chunks None [] w1
  = (Returned (Some b, all_results), w2) ->
  evaluate_proposition_support env citation proposition opinion_text model w
  = (Returned (PSR.set_reasoning ("[Evaluated in chunks] " +:+ PSR.reasoning b) b), w2) /\
  PSR.supports_proposition b = true /\
  (PSR.confidence b = "high" ->
   exists pre, all_results = pre ++ [b] /\
     Forall (fun r => PSR.supports_proposition r = true -> PSR.confidence r <> "high") pre) /\
  (PSR.confidence b <> "high" ->
   exists pre post, all_results = pre ++ b :: post /\
     Forall (fun r => PSR.supports_proposition r <> true) pre /\
     Forall (fun r => PSR.supports_proposition r = true -> PSR.confidence r <> "high") post).
Proof.
  intros Hfirst Hlarge Hchunks Hloop. split.
  - unfold evaluate_proposition_support, chunked_fallback.
    by rewrite Hfirst, Hlarge, Hchunks, Hloop.
  - exact (chunk_results_selected env _ _ _ _ _ _ _ _ _ _
             (Forall_nil_2 _ : running None []) Hloop).
Qed.

Lemma fallback_supporting_result_witness :
  evaluate_proposition_support (Fixture.env []) "1 U.S. 1" duty long_opinion
    "gpt-5-mini" Fixture.empty_world
  = (Returned (PSR.mk true "high" "[Evaluated in chunks] The opinion states the duty." None),
     emit (EvSupport "gpt-5-mini" "1 U.S. 1" duty full_window)
       (emit (EvSupport "gpt-5-mini" "1 U.S. 1" duty long_opinion) Fixture.empty_world)).
Proof.
  exact (proj1 (fallback_supporting_result (Fixture.env []) "1 U.S. 1" duty long_opinion
                  "gpt-5-mini" _ _ _ _ _ _ _ duty_first_call eq_refl
                  long_opinion_chunks duty_loop)).
Defined.

(** X17: the footprint of [evaluate_proposition_support].  Whatever the
    outcome, the cache is untouched and the log gains the call on the
    whole opinion followed by calls on the first [k] chunks, in order, for
    some [k]: no chunk is evaluated twice or out of order, and no network
    call is made. *)
Theorem support_footprint (env : Env) (citation proposition opinion_text model : string)
    (w : world) :
  exists k,
    (evaluate_proposition_support env citation proposition opinion_text model w).2
    = World.mk (cache w)
        (log w ++ EvSupport model citation proposition opinion_text
           :: (EvSupport model citation proposition
                 <$> take k (default [] (default_chunks opinion_text)))).
Proof.
  unfold evaluate_proposition_support.
  pose proof (single_chunk_world env citation proposition opinion_text model w) as Hw.
  destruct (_evaluate_single_chunk env citation proposition opinion_text model w)
    as [o w1]. simpl in Hw. subst w1.
  assert (Hstop : forall (x : outcome PSR.t),
            exists k,
              (x, emit (EvSupport model citation proposition opinion_text) w).2
              = World.mk (cache w)
                  (log w ++ EvSupport model citation proposition opinion_text
                     :: (EvSupport model citation proposition
                           <$> take k (default [] (default_chunks opinion_text))))).
  { intros x. by exists 0%nat. }
  destruct o as [r|e|]; [apply Hstop | | apply Hstop].
  destruct e; try apply Hstop.
  destruct (is_too_large message); [|apply Hstop].
  unfold chunked_fallback.
  destruct (default_chunks opinion_text) as [chunks|]; [|apply Hstop].
  destruct (chunk_results_world env citation proposition model chunks None []
              (emit (EvSupport model citation proposition opinion_text) w)) as (k & Hk).
  exists k. simpl.
  destruct (chunk_results env citation proposition model chunks None [] _)
    as [[[best all_results]|e|] w2]; simpl in *; subst w2; simpl;
    by rewrite <- app_assoc.
Qed.

(** An evaluator that rejects every request as too large. *)
Definition rejecting_env : Env := {|
  md5_hexdigest := fun s => s;
  now := fun _ => Qc_of_Z 0;
  citation_lookup := fun _ _ => Returned [];
  opinion_get := fun _ _ => Raised (HTTPStatusError 404);
  html_text_content := fun markup => Returned markup;
  parse_support := fun _ _ _ _ _ =>
    Raised (BadRequestError "This model's maximum context length was exceeded");
  parse_extract := fun _ _ _ => Returned None
|}.

(** X18: when the request is too large and every chunk is rejected with a
    [BadRequestError] as well, the function does not raise: it returns the
    negative result of low confidence "Failed to evaluate proposition
    support (all chunks failed)". *)
Theorem all_chunks_failed (env : Env)
    (citation proposition opinion_text model message : string) (w w1 : world) :
  _evaluate_single_chunk env citation proposition opinion_text model w
  = (Raised (BadRequestError message), w1) ->
  is_too_large message = true ->
  (forall l chunk, exists m,
     parse_support env l model citation proposition chunk = Raised (BadRequestError m)) ->
  exists w2,
    evaluate_proposition_support env citation proposition opinion_text model w
    = (Returned (PSR.mk false "low"
                   "Failed to evaluate proposition support (all chunks failed)" None), w2).
Proof.
  intros Hfirst Hlarge Hfail.
  unfold evaluate_proposition_support, chunked_fallback. rewrite Hfirst, Hlarge.
  destruct (default_chunks_total opinion_text) as (chunks & ->).
  assert (Hloop : forall chunks w0, exists w2,
            chunk_results env citation proposition model chunks None [] w0
            = (Returned (None, []), w2)).
  { clear -Hfail. intros chunks.
    induction chunks as [|chunk rest IH]; intros w0; [by eexists|].
    simpl. unfold _evaluate_single_chunk at 1.
    destruct (Hfail (log w0) chunk) as (m & ->). apply IH. }
  destruct (Hloop chunks w1) as (w2 & ->). by exists w2.
Qed.

Lemma all_chunks_failed_witness :
  exists w2,
    evaluate_proposition_support rejecting_env "1 U.S. 1" duty "A short opinion."
      "gpt-5-mini" Fixture.empty_world
    = (Returned (PSR.mk false "low"
                   "Failed to evaluate proposition support (all chunks failed)" None), w2).
Proof.
  apply (all_chunks_failed rejecting_env "1 U.S. 1" duty "A short opinion." "gpt-5-mini"
           "This model's maximum context length was exceeded" Fixture.empty_world
           (emit (EvSupport "gpt-5-mini" "1 U.S. 1" duty "A short opinion.")
              Fixture.empty_world)).
  - reflexivity.
  - vm_compute. reflexivity.
  - intros l chunk. by eexists.
Defined.

End SupportMore.

(** ** The orchestrator: entries, counters and cost *)

Module ComplaintMore.
Import Evaluation KeyFacts.
Local Open Scope string_scope.
Local Open Scope list_scope.
Local Open Scope Z_scope.

(** The mapping holds one entry per citation processed so far; [keys]
    lists, citation by citation, the key of its entry. *)
Record filed (done : list EC.t) (keys : list string)
    (m : gmap string CitationEvaluation.t) : Prop := {
  filed_length : length keys = length done;
  filed_nodup : NoDup keys;
  filed_dom : dom m = list_to_set keys;
  filed_entry :
    forall i cit key, done !! i = Some cit -> keys !! i = Some key ->
      (exists c, (c <= i)%nat /\ key = occurrence_key (EC.raw_text cit) c) /\
      exists ce, m !! key = Some ce /\ evaluates cit ce
}.

Lemma filed_nil : filed [] [] ∅.
Proof. split; [done | constructor | by rewrite dom_empty_L | done]. Qed.

Lemma filed_size done keys m : filed done keys m -> size m = length done.
Proof.
  intros [Hlen Hnodup Hdom _].
  by rewrite <- size_dom, Hdom, size_list_to_set, Hlen.
Qed.

(** Storing the next citation under the key the loop finds adds an entry
    and overwrites none. *)
Lemma filed_step done keys m cit key ce :
  filed done keys m ->
  unique_key m (EC.raw_text cit) = Some key ->
  evaluates cit ce ->
  filed (done ++ [cit]) (keys ++ [key]) (<[key := ce]> m).
Proof.
  intros Hfiled Hkey Hce. pose proof (filed_size _ _ _ Hfiled) as Hsize.
  destruct Hfiled as [Hlen Hnodup Hdom Hentry].
  destruct (unique_key_least m (EC.raw_text cit)) as (c & Hkey' & Hfree & Hbelow).
  rewrite Hkey in Hkey'. injection Hkey' as ->.
  apply occurrence_keys_bound in Hbelow.
  assert (Hnew : occurrence_key (EC.raw_text cit) c ∉ keys).
  { intros Hin. apply (not_elem_of_dom_2 m) in Hfree. apply Hfree.
    rewrite Hdom. by apply elem_of_list_to_set. }
  split.
  - rewrite !length_app. simpl. lia.
  - apply NoDup_app. split; [done|]. split; [|apply NoDup_singleton].
    intros x Hx ->%list_elem_of_singleton. done.
  - rewrite dom_insert_L, Hdom, list_to_set_app_L. simpl.
    rewrite (right_id_L ∅ (∪)). apply (comm_L (∪)).
  - intros i x key Hi Hk.
    apply lookup_app_Some in Hi as [Hi|[Hge Hi]].
    + pose proof (lookup_lt_Some _ _ _ Hi) as Hlt.
      rewrite lookup_app_l in Hk by lia.
      destruct (Hentry i x key Hi Hk) as (Hshape & ce' & Hce' & Hev).
      split; [done|]. exists ce'. split; [|done].
      rewrite lookup_insert_ne; [done|].
      intros <-. by rewrite Hfree in Hce'.
    + apply list_lookup_singleton_Some in Hi as [Hi <-].
      assert (i = length done) as -> by lia.
      rewrite <- Hlen, list_lookup_middle in Hk by done. injection Hk as <-.
      split; [exists c; split; [lia | done]|].
      exists ce. by rewrite lookup_insert_eq.
Qed.

Section WithEnv.
Variable env : Env.

Lemma evaluate_citations_filed model rest :
  forall done keys ev w ev' w',
    evaluate_citations env model rest ev w = (Returned ev', w') ->
    filed done keys (CE.citations ev) ->
    exists keys', filed (done ++ rest) keys' (CE.citations ev').
Proof.
  induction rest as [|cit rest IH]; intros done keys ev w ev' w'.
  - intros [= <- <-] Hfiled. exists keys. by rewrite app_nil_r.
  - simpl. unfold bind.
    destruct (evaluate_citation env model cit ev w) as [[ev1| |] w1] eqn:Hcit; [|done..].
    intros Hrest Hfiled.
    apply evaluate_citation_stores in Hcit as (key & ce & Hkey & Hput & Hce).
    rewrite (cons_middle cit done rest), app_assoc.
    eapply (IH _ (keys ++ [key])); [exact Hrest|].
    rewrite Hput. by apply filed_step.
Qed.

End WithEnv.

(** X19: no evaluation is lost.  Whatever the raw texts are, the mapping
    of a returned evaluation holds one entry per extracted citation:
    there are as many entries as citations ([total_citations] of them),
    and the citation at index [i] has an entry of its own that carries its
    raw text, type and proposition, under its raw text or under its raw
    text followed by [" (c)"] for some [1 <= c <= i]. *)
Theorem every_citation_filed (env : Env) (name text : string)
    (metadata : gmap string string) (extraction_model evaluation_model : string)
    (w w1 w' : world) (cits : list EC.t) (ev : CE.t) :
  extract_citations_with_llm env text extraction_model w = (Returned cits, w1) ->
  evaluate_complaint env name text metadata extraction_model evaluation_model w
  = (Returned ev, w') ->
  CE.total_citations ev = py_len cits /\
  Z.of_nat (size (CE.citations ev)) = CE.total_citations ev /\
  exists keys,
    length keys = length cits /\ NoDup keys /\
    (forall key, is_Some (CE.citations ev !! key) <-> key ∈ keys) /\
    forall i cit key, cits !! i = Some cit -> keys !! i = Some key ->
      (key = EC.raw_text cit \/
       exists c, 1 <= c <= Z.of_nat i /\ key = suffixed (EC.raw_text cit) c) /\
      exists ce, CE.citations ev !! key = Some ce /\ evaluates cit ce.
Proof.
  intros Hextract Hrun. unfold evaluate_complaint, bind in Hrun.
  rewrite Hextract in Hrun.
  pose proof (CountFacts.evaluate_citations_advances _ _ _ _ _ _ _ Hrun) as [[Htotal _] _].
  simpl in Htotal.
  apply (evaluate_citations_filed env _ _ [] []) in Hrun as (keys & Hfiled);
    [|apply filed_nil].
  simpl in Hfiled. pose proof (filed_size _ _ _ Hfiled) as Hsize.
  destruct Hfiled as [Hlen Hnodup Hdom Hentry].
  split; [exact Htotal|]. split; [rewrite Htotal, Hsize; reflexivity|].
  exists keys. split; [exact Hlen|]. split; [exact Hnodup|]. split.
  - intros key. rewrite <- elem_of_dom, Hdom. apply elem_of_list_to_set.
  - intros i cit key Hi Hk.
    destruct (Hentry i cit key Hi Hk) as ((c & Hc & ->) & Hce). split; [|exact Hce].
    destruct c as [|c]; [by left|]. right. exists (Z.of_nat (S c)). split; [lia | done].
Qed.

Lemma every_citation_filed_witness :
  exists ev w',
    evaluate_complaint (Fixture.env clashing_citations) "complaint_002.txt"
      "COMPLAINT ..." ∅ "gpt-5-mini" "gpt-5-mini" Fixture.empty_world
    = (Returned ev, w') /\
    Z.of_nat (size (CE.citations ev)) = CE.total_citations ev /\
    CE.total_citations ev = 3.
Proof.
  assert (Hrun : exists ev w',
             evaluate_complaint (Fixture.env clashing_citations) "complaint_002.txt"
               "COMPLAINT ..." ∅ "gpt-5-mini" "gpt-5-mini" Fixture.empty_world
             = (Returned ev, w')).
  { eexists _, _. vm_compute. reflexivity. }
  destruct Hrun as (ev & w' & Hrun). exists ev, w'. split; [exact Hrun|].
  destruct (every_citation_filed (Fixture.env clashing_citations) _ _ _ _ _ _
              (emit (EvExtract "gpt-5-mini" "COMPLAINT ...") Fixture.empty_world)
              _ clashing_citations _ eq_refl Hrun) as (Htotal & Hsize & _).
  split; [exact Hsize | exact Htotal].
Defined.

(** *** The counters and the mapping *)

Definition entry_statute (ce : CitationEvaluation.t) : bool :=
  String.eqb (CitationEvaluation.citation_type ce) "statute".
Definition entry_case (ce : CitationEvaluation.t) : bool := negb (entry_statute ce).
Definition entry_valid (ce : CitationEvaluation.t) : bool :=
  bool_decide (CitationEvaluation.is_valid ce = Some true).
Definition entry_invalid (ce : CitationEvaluation.t) : bool :=
  bool_decide (CitationEvaluation.is_valid ce = Some false).
Definition entry_supported (ce : CitationEvaluation.t) : bool :=
  bool_decide (CitationEvaluation.supports_proposition ce = Some true).
Definition entry_unsupported (ce : CitationEvaluation.t) : bool :=
  bool_decide (CitationEvaluation.supports_proposition ce = Some false).

(** The number of entries of the mapping that satisfy [P]. *)
Definition tally (P : CitationEvaluation.t -> bool)
    (m : gmap string CitationEvaluation.t) : Z :=
  Z.of_nat (size (filter (fun entry => P entry.2 = true) m)).

Definition indicator (b : bool) : Z := if b then 1 else 0.

Lemma tally_empty P : tally P ∅ = 0.
Proof. unfold tally. by rewrite map_filter_empty, map_size_empty. Qed.

Lemma tally_insert P m key ce :
  m !! key = None -> tally P (<[key := ce]> m) = tally P m + indicator (P ce).
Proof.
  intros Hfree. unfold tally, indicator. destruct (P ce) eqn:HP.
  - rewrite map_filter_insert_True by done.
    rewrite map_size_insert_None; [lia|].
    apply map_lookup_filter_None. by left.
  - rewrite map_filter_insert_not'; [lia | simpl; by rewrite HP |].
    intros y Hy. by rewrite Hfree in Hy.
Qed.

(** Every counter is the number of entries of its kind. *)
Record tallied (ev : CE.t) : Prop := {
  tallied_statute : CE.statute_citations ev = tally entry_statute (CE.citations ev);
  tallied_case : CE.case_citations ev = tally entry_case (CE.citations ev);
  tallied_valid : CE.valid_citations ev = tally entry_valid (CE.citations ev);
  tallied_invalid : CE.invalid_citations ev = tally entry_invalid (CE.citations ev);
  tallied_supported :
    CE.supported_propositions ev = tally entry_supported (CE.citations ev);
  tallied_unsupported :
    CE.unsupported_propositions ev = tally entry_unsupported (CE.citations ev)
}.

Lemma tallied_put key ce ev statute case valid invalid supported unsupported :
  tallied ev ->
  CE.citations ev !! key = None ->
  statute = indicator (entry_statute ce) ->
  case = indicator (entry_case ce) ->
  valid = indicator (entry_valid ce) ->
  invalid = indicator (entry_invalid ce) ->
  supported = indicator (entry_supported ce) ->
  unsupported = indicator (entry_unsupported ce) ->
  tallied (put_citation key ce (bump statute case valid invalid supported unsupported ev)).
Proof.
  intros [] Hfree -> -> -> -> -> ->.
  split; simpl; rewrite tally_insert by done; congruence.
Qed.

Lemma store_tallied cit ce ev0 ev w ev' w' statute case valid invalid supported unsupported :
  store cit ce ev w = (Returned ev', w') ->
  ev = bump statute case valid invalid supported unsupported ev0 ->
  tallied ev0 ->
  statute = indicator (entry_statute ce) ->
  case = indicator (entry_case ce) ->
  valid = indicator (entry_valid ce) ->
  invalid = indicator (entry_invalid ce) ->
  supported = indicator (entry_supported ce) ->
  unsupported = indicator (entry_unsupported ce) ->
  tallied ev'.
Proof.
  intros (_ & key & Hkey & ->)%CountFacts.store_returned -> Hev.
  destruct (unique_key_total (CE.citations ev0) (EC.raw_text cit)) as (key' & Hkey' & Hfree).
  simpl in Hkey. rewrite Hkey' in Hkey. injection Hkey as ->.
  by apply tallied_put.
Qed.

Lemma bump_bump s1 c1 v1 i1 p1 u1 s2 c2 v2 i2 p2 u2 ev :
  bump s2 c2 v2 i2 p2 u2 (bump s1 c1 v1 i1 p1 u1 ev)
  = bump (s1 + s2) (c1 + c2) (v1 + v2) (i1 + i2) (p1 + p2) (u1 + u2) ev.
Proof. unfold bump. simpl. f_equal; lia. Qed.

Ltac unfold_kinds :=
  unfold entry_case, entry_statute, entry_valid, entry_invalid,
    entry_supported, entry_unsupported.

Section Tallies.
Variable env : Env.

Lemma evaluate_citation_tallied model cit ev w ev' w' :
  evaluate_citation env model cit ev w = (Returned ev', w') ->
  tallied ev -> tallied ev'.
Proof.
  unfold evaluate_citation.
  destruct (String.eqb (EC.citation_type cit) "statute") eqn:Hst.
  { intros Hstore Hev.
    eapply (store_tallied _ _ ev); [exact Hstore | reflexivity | exact Hev | ..];
      unfold_kinds;
      simpl; by rewrite ?Hst. }
  destruct (Validator.validate_citation env _ w) as [[[[]| |] validated] w1] eqn:Hval;
    [|done..].
  apply ValidatorFacts.validate_citation_returned in Hval as (_ & [b Hb] & _).
  case_bool_decide as Hvalid.
  - destruct (PyStr.truthy (Citation.opinion_text validated)).
    + destruct (evaluate_proposition_support env _ _ _ model w1)
        as [[support| |] w2]; [|done..].
      intros Hstore Hev.
      destruct (PSR.supports_proposition support) eqn:Hsup;
        (eapply (store_tallied _ _ ev);
         [exact Hstore | by rewrite !bump_bump | exact Hev | ..];
         unfold_kinds;
         simpl; by rewrite ?Hst, ?Hvalid, ?Hsup).
    + intros Hstore Hev.
      eapply (store_tallied _ _ ev);
        [exact Hstore | by rewrite !bump_bump | exact Hev | ..];
        unfold_kinds;
        simpl; by rewrite ?Hst, ?Hvalid.
  - intros Hstore Hev. rewrite Hb in Hvalid. destruct b; [done|].
    eapply (store_tallied _ _ ev);
      [exact Hstore | by rewrite !bump_bump | exact Hev | ..];
      unfold_kinds;
      simpl; by rewrite ?Hst, ?Hb.
Qed.

Lemma evaluate_citations_tallied model citations :
  forall ev w ev' w',
    evaluate_citations env model citations ev w = (Returned ev', w') ->
    tallied ev -> tallied ev'.
Proof.
  induction citations as [|cit rest IH]; intros ev w ev' w'.
  - by intros [= <- <-].
  - simpl. unfold bind.
    destruct (evaluate_citation env model cit ev w) as [[ev1| |] w1] eqn:Hcit; [|done..].
    intros Hrest Hev. eapply IH; [exact Hrest|].
    by eapply evaluate_citation_tallied.
Qed.

End Tallies.

(** X20: the counters count the entries.  In a returned evaluation every
    counter is the number of entries of the mapping of its kind: statutes
    and cases by the citation type, valid and invalid by [is_valid] being
    [True] or [False], supported and unsupported by [supports_proposition]
    being [True] or [False]. *)
Theorem counters_count_entries (env : Env) (name text : string)
    (metadata : gmap string string) (extraction_model evaluation_model : string)
    (w w' : world) (ev : CE.t) :
  evaluate_complaint env name text metadata extraction_model evaluation_model w
  = (Returned ev, w') ->
  CE.statute_citations ev = tally entry_statute (CE.citations ev) /\
  CE.case_citations ev = tally entry_case (CE.citations ev) /\
  CE.valid_citations ev = tally entry_valid (CE.citations ev) /\
  CE.invalid_citations ev = tally entry_invalid (CE.citations ev) /\
  CE.supported_propositions ev = tally entry_supported (CE.citations ev) /\
  CE.unsupported_propositions ev = tally entry_unsupported (CE.citations ev).
Proof.
  unfold evaluate_complaint, bind.
  destruct (extract_citations_with_llm env text extraction_model w)
    as [[citations| |] w1]; [|done..].
  intros Hrun. apply evaluate_citations_tallied in Hrun as [].
  - by repeat split.
  - split; simpl; by rewrite tally_empty.
Qed.

Lemma counters_count_entries_witness :
  exists ev w',
    CountFacts.sample_run = (Returned ev, w') /\
    tally entry_valid (CE.citations ev) = 1 /\
    tally entry_invalid (CE.citations ev) = 1 /\
    tally entry_statute (CE.citations ev) = 1.
Proof.
  destruct CountFacts.sample_run_returns
    as (ev & w' & Hrun & _ & _ & Hstatute & Hvalid & Hinvalid & _).
  exists ev, w'. split; [exact Hrun|].
  destruct (counters_count_entries _ _ _ _ _ _ _ _ _ Hrun)
    as (H1 & _ & H3 & H4 & _).
  rewrite <- H1, <- H3, <- H4. by repeat split.
Defined.

(** *** What a complaint costs *)

(** [appends n w w']: the log is extended by events of which at most [n]
    are network calls. *)
Definition appends (n : nat) (w w' : world) : Prop :=
  exists l, log w' = log w ++ l /\ (network_calls l <= n)%nat.

(** The extracted citations that are not statutes. *)
Definition cases (cits : list EC.t) : nat :=
  length (List.filter (fun cit => negb (String.eqb (EC.citation_type cit) "statute")) cits).

Lemma appends_refl n w : appends n w w.
Proof. exists []. rewrite app_nil_r. split; [done | unfold network_calls; simpl; lia]. Qed.

Lemma appends_trans n m w1 w2 w3 :
  appends n w1 w2 -> appends m w2 w3 -> appends (n + m) w1 w3.
Proof.
  intros (l1 & Hl1 & Hn1) (l2 & Hl2 & Hn2).
  exists (l1 ++ l2). rewrite Hl2, Hl1, app_assoc, ValidatorMore.network_calls_app.
  split; [done | lia].
Qed.

Lemma appends_weaken n m w w' : (n <= m)%nat -> appends n w w' -> appends m w w'.
Proof. intros Hnm (l & Hl & Hn). exists l. split; [done | lia]. Qed.

Lemma grows_appends n w w' : ValidatorMore.grows n w w' -> appends n w w'.
Proof. by intros [_ H]. Qed.

Lemma network_calls_support model citation proposition chunks :
  network_calls (EvSupport model citation proposition <$> chunks) = 0%nat.
Proof. unfold network_calls. by induction chunks. Qed.

Section Cost.
Variable env : Env.

Lemma appends_cache_set n w w' c b i nm o e :
  appends n w w' -> appends n w (Validator.cache_set env c b i nm o e w').
Proof. done. Qed.

Lemma validate_citation_appends citation w :
  appends 8 w (Validator.validate_citation env citation w).2.
Proof.
  unfold Validator.validate_citation.
  destruct (Validator.cache_get env citation w) as [cached|]; [apply appends_refl|].
  pose proof (ValidatorMore.lookup_citation_grows env (Citation.raw_text citation) w) as Hlook.
  destruct (Validator.lookup_citation env (Citation.raw_text citation) w)
    as [[found|e|] w1]; simpl in Hlook;
    [|by apply (appends_weaken 4); [lia | apply grows_appends]..].
  destruct (Validator.truthy_cluster found) as [cluster|].
  - pose proof (ValidatorMore.extract_opinion_text_grows env cluster w1) as Hext.
    pose proof (grows_appends _ _ _ (ValidatorMore.grows_trans _ _ _ _ _ Hlook Hext)) as Hboth.
    destruct (Validator._extract_opinion_text env cluster w1) as [[opinion|e|] w2];
      simpl in *; [by apply appends_cache_set | done..].
  - simpl. apply appends_cache_set, (appends_weaken 4); [lia|]. by apply grows_appends.
Qed.

Lemma support_appends citation proposition opinion_text model w :
  appends 0 w (evaluate_proposition_support env citation proposition opinion_text model w).2.
Proof.
  assert (Hquiet : forall w1 chunks,
            appends 0 w (World.mk (cache w1)
                           (log (emit (EvSupport model citation proposition opinion_text) w)
                            ++ (EvSupport model citation proposition <$> chunks)))).
  { intros w1 chunks.
    exists (EvSupport model citation proposition <$> opinion_text :: chunks). split.
    - simpl. by rewrite <- app_assoc.
    - by rewrite network_calls_support. }
  assert (Hstop : appends 0 w (emit (EvSupport model citation proposition opinion_text) w)).
  { specialize (Hquiet w []). simpl in Hquiet. by rewrite app_nil_r in Hquiet. }
  unfold evaluate_proposition_support.
  pose proof (SupportMore.single_chunk_world env citation proposition opinion_text model w)
    as Hw.
  destruct (_evaluate_single_chunk env citation proposition opinion_text model w)
    as [o w1]. simpl in Hw. subst w1.
  destruct o as [r|e|]; [done| |done]. destruct e; try done.
  destruct (is_too_large message); [|done].
  unfold chunked_fallback.
  destruct (default_chunks opinion_text) as [chunks|]; [|done].
  destruct (SupportMore.chunk_results_world env citation proposition model chunks None []
              (emit (EvSupport model citation proposition opinion_text) w)) as (k & Hk).
  destruct (chunk_results env citation proposition model chunks None [] _)
    as [[[best all_results]|e|] w2]; simpl in Hk; subst w2; apply Hquiet.
Qed.

Lemma store_world cit ce ev w : (store cit ce ev w).2 = w.
Proof. unfold store. by destruct (unique_key _ _). Qed.

Lemma store_case cit ce ev w ev' :
  (store cit ce ev w).1 = Returned ev' -> CE.case_citations ev' = CE.case_citations ev.
Proof. unfold store. destruct (unique_key _ _); [|done]. by intros [= <-]. Qed.

Lemma evaluate_citation_cost model cit ev w :
  appends (8 * cases [cit]) w (evaluate_citation env model cit ev w).2 /\
  forall ev', (evaluate_citation env model cit ev w).1 = Returned ev' ->
    CE.case_citations ev' = CE.case_citations ev + Z.of_nat (cases [cit]).
Proof.
  unfold evaluate_citation, cases. simpl.
  destruct (String.eqb (EC.citation_type cit) "statute"); simpl.
  { rewrite store_world. split; [apply appends_refl|].
    intros ev' ->%store_case. simpl. lia. }
  pose proof (validate_citation_appends (Citation.new (EC.raw_text cit)) w) as Hval.
  destruct (Validator.validate_citation env _ w) as [[[[]| |] validated] w1];
    simpl in Hval; [|done..].
  case_bool_decide.
  - destruct (PyStr.truthy (Citation.opinion_text validated)).
    + pose proof (support_appends (EC.raw_text cit) (EC.proposition cit)
                    (default "" (Citation.opinion_text validated)) model w1) as Hsup.
      pose proof (appends_trans _ _ _ _ _ Hval Hsup) as Hboth.
      destruct (evaluate_proposition_support env _ _ _ model w1)
        as [[support| |] w2]; simpl in Hboth; [|done..].
      rewrite store_world. split; [done|].
      intros ev' ->%store_case.
      destruct (PSR.supports_proposition support); simpl; lia.
    + rewrite store_world. split; [done|]. intros ev' ->%store_case. simpl. lia.
  - rewrite store_world. split; [done|]. intros ev' ->%store_case. simpl. lia.
Qed.

Lemma cases_cons cit rest : cases (cit :: rest) = (cases [cit] + cases rest)%nat.
Proof.
  unfold cases. simpl.
  by destruct (negb (String.eqb (EC.citation_type cit) "statute")).
Qed.

Lemma evaluate_citations_cost model citations :
  forall ev w,
    appends (8 * cases citations) w (evaluate_citations env model citations ev w).2 /\
    forall ev', (evaluate_citations env model citations ev w).1 = Returned ev' ->
      CE.case_citations ev' = CE.case_citations ev + Z.of_nat (cases citations).
Proof.
  induction citations as [|cit rest IH]; intros ev w.
  - simpl. split; [apply appends_refl|]. intros ev' [= <-]. unfold cases. simpl. lia.
  - rewrite cases_cons. simpl. unfold bind.
    destruct (evaluate_citation_cost model cit ev w) as [Hone Hcase].
    destruct (evaluate_citation env model cit ev w) as [[ev1| |] w1]; simpl in *.
    + destruct (IH ev1 w1) as [Hrest Hcases]. split.
      * eapply appends_weaken; [|by eapply appends_trans]. lia.
      * intros ev' Hev'. rewrite (Hcases ev' Hev'), (Hcase ev1 eq_refl). lia.
    + split; [|done]. eapply appends_weaken; [|exact Hone]. lia.
    + split; [|done]. eapply appends_weaken; [|exact Hone]. lia.
Qed.

End Cost.

(** X21: what a complaint costs.  Whatever the outcome of
    [evaluate_complaint], the log is only appended to, first with the one
    call of the extractor; what follows holds at most 8 network calls for
    each extracted citation that is not a statute, and in a returned
    evaluation that number is [case_citations]: statutes never reach the
    lookup service. *)
Theorem complaint_network_budget (env : Env) (name text : string)
    (metadata : gmap string string) (extraction_model evaluation_model : string)
    (w w' : world) (o : outcome CE.t) :
  evaluate_complaint env name text metadata extraction_model evaluation_model w = (o, w') ->
  exists l,
    log w' = log w ++ EvExtract extraction_model text :: l /\
    (forall cits w1,
       extract_citations_with_llm env text extraction_model w = (Returned cits, w1) ->
       (network_calls l <= 8 * cases cits)%nat) /\
    (forall ev, o = Returned ev ->
       Z.of_nat (network_calls l) <= 8 * CE.case_citations ev).
Proof.
  unfold evaluate_complaint, bind.
  assert (Hw : (extract_citations_with_llm env text extraction_model w).2
               = emit (EvExtract extraction_model text) w).
  { unfold extract_citations_with_llm. by repeat case_match. }
  destruct (extract_citations_with_llm env text extraction_model w)
    as [[citations|e|] w1]; simpl in Hw; subst w1.
  - set (ev0 := set_total _ _).
    destruct (evaluate_citations_cost env evaluation_model citations ev0
                (emit (EvExtract extraction_model text) w)) as [(l & Hl & Hn) Hcase].
    intros Hrun. rewrite Hrun in Hl, Hcase. simpl in Hl, Hcase.
    exists l. split; [by rewrite Hl, <- app_assoc|]. split.
    + by intros cits w1 [= <-].
    + intros ev Hev. rewrite (Hcase ev Hev). simpl. lia.
  - intros [= <- <-]. exists []. split; [done|]. split; [done | done].
  - intros [= <- <-]. exists []. split; [done|]. split; [done | done].
Qed.

Lemma complaint_network_budget_witness :
  exists ev w' l,
    evaluate_complaint (Fixture.env repeated_citations) "complaint_003.txt"
      "COMPLAINT ..." ∅ "gpt-5-mini" "gpt-5-mini" Fixture.empty_world
    = (Returned ev, w') /\
    log w' = EvExtract "gpt-5-mini" "COMPLAINT ..." :: l /\
    network_calls l = 0%nat.
Proof.
  assert (Hrun : exists ev w',
             evaluate_complaint (Fixture.env repeated_citations) "complaint_003.txt"
               "COMPLAINT ..." ∅ "gpt-5-mini" "gpt-5-mini" Fixture.empty_world
             = (Returned ev, w')).
  { eexists _, _. vm_compute. reflexivity. }
  destruct Hrun as (ev & w' & Hrun).
  destruct (complaint_network_budget _ _ _ _ _ _ _ _ _ Hrun) as (l & Hl & Hn & _).
  exists ev, w', l. split; [exact Hrun|]. split; [exact Hl|].
  specialize (Hn repeated_citations _ eq_refl).
  change (cases repeated_citations) with 0%nat in Hn. lia.
Defined.

(** *** Repeated citations *)

(** The cache keys of the extracted citations that are not statutes. *)
Fixpoint case_keys (env : Env) (cits : list EC.t) : gset string :=
  match cits with
  | [] => ∅
  | cit :: rest =>
      (if String.eqb (EC.citation_type cit) "statute" then ∅
       else {[ Validator.make_key env (EC.raw_text cit) ]})
      ∪ case_keys env rest
  end.

Lemma size_uncached (K1 K2 D0 D1 : gset string) :
  D0 ⊆ D1 -> K1 ⊆ D1 ->
  (size (K1 ∖ D0) + size (K2 ∖ D1) <= size ((K1 ∪ K2) ∖ D0))%nat.
Proof.
  intros HD HK. rewrite <- size_union.
  - apply subseteq_size. intros x Hx. apply elem_of_difference.
    apply elem_of_union in Hx as [[H1 H2]%elem_of_difference|[H1 H2]%elem_of_difference].
    + split; [apply elem_of_union; by left | done].
    + split; [apply elem_of_union; by right|]. intros H. by apply H2, HD.
  - intros x [H1 _]%elem_of_difference [_ H2]%elem_of_difference. by apply H2, HK.
Qed.

Lemma uncached_mono (K1 K2 D : gset string) : K1 ∖ D ⊆ (K1 ∪ K2) ∖ D.
Proof.
  intros x [H1 H2]%elem_of_difference. apply elem_of_difference.
  split; [apply elem_of_union; by left | done].
Qed.

Section Once.
Variable env : Env.

(** A validation keeps what the cache holds, leaves the citation's key in
    it when it returns, and reaches the network only when the key was not
    there. *)
Lemma validate_citation_spends citation w :
  let key := Validator.make_key env (Citation.raw_text citation) in
  let r := Validator.validate_citation env citation w in
  dom (cache w) ⊆ dom (cache r.2) /\
  (r.1.1 = Returned tt -> key ∈ dom (cache r.2)) /\
  appends (8 * size ({[key]} ∖ dom (cache w))) w r.2.
Proof.
  intros key r.
  destruct (Validator.cache_get env citation w) as [cached|] eqn:Hget.
  - assert (Hin : key ∈ dom (cache w)).
    { apply elem_of_dom, ValidatorFacts.cache_get_Some. by rewrite Hget. }
    destruct (ValidatorFacts.validate_citation_cached env citation w) as (c' & Hrun);
      [by rewrite Hget|].
    subst r. rewrite Hrun. simpl. split; [done|]. split; [done|]. apply appends_refl.
  - assert (Hout : key ∉ dom (cache w)).
    { intros Hin%elem_of_dom%ValidatorFacts.cache_get_Some. rewrite Hget in Hin.
      by destruct Hin. }
    assert (Hsize : size ({[key]} ∖ dom (cache w)) = 1%nat).
    { rewrite difference_disjoint_L by set_solver. apply size_singleton. }
    rewrite Hsize. split; [|split].
    + subst r. unfold Validator.validate_citation. rewrite Hget.
      pose proof (ValidatorMore.lookup_citation_grows env (Citation.raw_text citation) w)
        as [Hc1 _].
      destruct (Validator.lookup_citation env (Citation.raw_text citation) w)
        as [[found|e|] w1]; simpl in Hc1 |- *; [|by rewrite Hc1..].
      destruct (Validator.truthy_cluster found) as [cluster|].
      * pose proof (ValidatorMore.extract_opinion_text_grows env cluster w1) as [Hc2 _].
        destruct (Validator._extract_opinion_text env cluster w1) as [[opinion|e|] w2];
          simpl in *; rewrite ?dom_insert_L, Hc2, Hc1; set_solver.
      * simpl. rewrite dom_insert_L, Hc1. set_solver.
    + intros Hret. destruct r as [[o c'] w'] eqn:Hr. simpl in Hret. subst o.
      apply ValidatorFacts.validate_citation_returned in Hr as (_ & _ & Hkey).
      by apply elem_of_dom.
    + apply validate_citation_appends.
Qed.

Lemma support_cache citation proposition opinion_text model w :
  cache (evaluate_proposition_support env citation proposition opinion_text model w).2
  = cache w.
Proof.
  unfold evaluate_proposition_support.
  pose proof (SupportMore.single_chunk_world env citation proposition opinion_text model w)
    as Hw.
  destruct (_evaluate_single_chunk env citation proposition opinion_text model w)
    as [o w1]. simpl in Hw. subst w1.
  destruct o as [r|e|]; [done| |done]. destruct e; try done.
  destruct (is_too_large message); [|done].
  unfold chunked_fallback.
  destruct (default_chunks opinion_text) as [chunks|]; [|done].
  destruct (SupportMore.chunk_results_world env citation proposition model chunks None []
              (emit (EvSupport model citation proposition opinion_text) w)) as (k & Hk).
  by destruct (chunk_results env citation proposition model chunks None [] _)
    as [[[best all_results]|e|] w2]; simpl in Hk; subst w2.
Qed.

Lemma evaluate_citation_spends model cit ev w :
  let r := evaluate_citation env model cit ev w in
  dom (cache w) ⊆ dom (cache r.2) /\
  ((exists ev', r.1 = Returned ev') -> case_keys env [cit] ⊆ dom (cache r.2)) /\
  appends (8 * size (case_keys env [cit] ∖ dom (cache w))) w r.2.
Proof.
  unfold evaluate_citation. simpl.
  destruct (String.eqb (EC.citation_type cit) "statute"); simpl.
  { rewrite store_world. split; [done|]. split; [|apply appends_refl].
    intros _. rewrite (left_id_L ∅ (∪)). apply empty_subseteq. }
  rewrite (right_id_L ∅ (∪)).
  destruct (validate_citation_spends (Citation.new (EC.raw_text cit)) w)
    as (Hsub & Hkey & Hcalls). simpl in Hsub, Hkey, Hcalls.
  destruct (Validator.validate_citation env _ w) as [[[[]| |] validated] w1];
    simpl in *; [|split; [done | split; [by intros [? ?] | done]]..].
  specialize (Hkey eq_refl). apply singleton_subseteq_l in Hkey.
  case_bool_decide.
  - destruct (PyStr.truthy (Citation.opinion_text validated)).
    + pose proof (support_appends env (EC.raw_text cit) (EC.proposition cit)
                    (default "" (Citation.opinion_text validated)) model w1) as Hsup.
      pose proof (support_cache (EC.raw_text cit) (EC.proposition cit)
                    (default "" (Citation.opinion_text validated)) model w1) as Hsame.
      pose proof (appends_trans _ _ _ _ _ Hcalls Hsup) as Hboth.
      rewrite Nat.add_0_r in Hboth.
      destruct (evaluate_proposition_support env _ _ _ model w1)
        as [[support| |] w2]; simpl in *; rewrite ?store_world, ?Hsame;
        by split; [|split].
    + rewrite store_world. by split; [|split].
  - rewrite store_world. by split; [|split].
Qed.

Lemma evaluate_citations_spends model citations :
  forall ev w,
    let r := evaluate_citations env model citations ev w in
    dom (cache w) ⊆ dom (cache r.2) /\
    appends (8 * size (case_keys env citations ∖ dom (cache w))) w r.2.
Proof.
  induction citations as [|cit rest IH]; intros ev w.
  - simpl. split; [done | apply appends_refl].
  - cbn [evaluate_citations]. unfold bind.
    destruct (evaluate_citation_spends model cit ev w) as (Hsub & Hkeys & Hone).
    cbv zeta in Hsub, Hkeys, Hone.
    assert (Hcons : case_keys env (cit :: rest) = case_keys env [cit] ∪ case_keys env rest).
    { simpl. by rewrite (right_id_L ∅ (∪)). }
    rewrite Hcons.
    destruct (evaluate_citation env model cit ev w) as [[ev1| |] w1]; cbn [fst snd] in *.
    + destruct (IH ev1 w1) as [Hsub' Hrest]. cbv zeta in Hsub', Hrest.
      split; [by etrans|].
      eapply appends_weaken; [|by eapply appends_trans].
      pose proof (size_uncached (case_keys env [cit]) (case_keys env rest)
                    (dom (cache w)) (dom (cache w1)) Hsub (Hkeys ltac:(eauto))).
      lia.
    + split; [done|]. eapply appends_weaken; [|exact Hone].
      apply Nat.mul_le_mono_l, subseteq_size, uncached_mono.
    + split; [done|]. eapply appends_weaken; [|exact Hone].
      apply Nat.mul_le_mono_l, subseteq_size, uncached_mono.
Qed.

End Once.

(** X22: a case is looked up once.  After the call of the extractor,
    [evaluate_complaint] makes at most 8 network calls for each distinct
    cache key among the extracted citations that are not statutes and
    that the cache does not hold already: a citation repeated in the
    document, also in another case or with other surrounding whitespace,
    is answered from the cache, and a document whose cases are all cached
    makes no network call. *)
Theorem repeated_citation_looked_up_once (env : Env) (name text : string)
    (metadata : gmap string string) (extraction_model evaluation_model : string)
    (w w1 w' : world) (cits : list EC.t) (o : outcome CE.t) :
  extract_citations_with_llm env text extraction_model w = (Returned cits, w1) ->
  evaluate_complaint env name text metadata extraction_model evaluation_model w = (o, w') ->
  exists l,
    log w' = log w ++ EvExtract extraction_model text :: l /\
    (network_calls l <= 8 * size (case_keys env cits ∖ dom (cache w)))%nat /\
    (case_keys env cits ⊆ dom (cache w) -> network_calls l = 0%nat).
Proof.
  intros Hextract. unfold evaluate_complaint, bind. rewrite Hextract.
  assert (Hw : w1 = emit (EvExtract extraction_model text) w).
  { unfold extract_citations_with_llm in Hextract. by repeat case_match; simplify_eq. }
  subst w1. set (ev0 := set_total _ _).
  destruct (evaluate_citations_spends env evaluation_model cits ev0
              (emit (EvExtract extraction_model text) w)) as [_ (l & Hl & Hn)].
  intros Hrun. rewrite Hrun in Hl. simpl in Hl, Hn.
  exists l. split; [by rewrite Hl, <- app_assoc|]. split; [exact Hn|].
  intros Hall. rewrite (subseteq_empty_difference_L _ _ Hall), size_empty in Hn. lia.
Qed.

(** A document that cites the same case twice, in two spellings. *)
Definition twice_cited : list EC.t :=
  [ EC.mk "Smith v. Jones, 123 F.3d 456" "case" "Defendants owe a duty of care.";
    EC.mk " SMITH v. JONES, 123 F.3d 456" "case" "Defendants owe a duty of care." ].

Lemma repeated_citation_looked_up_once_witness :
  exists ev w' l,
    evaluate_complaint (Fixture.env twice_cited) "complaint_004.txt"
      "COMPLAINT ..." ∅ "gpt-5-mini" "gpt-5-mini" Fixture.empty_world
    = (Returned ev, w') /\
    CE.case_citations ev = 2 /\
    log w' = EvExtract "gpt-5-mini" "COMPLAINT ..." :: l /\
    (network_calls l <= 8)%nat.
Proof.
  assert (Hrun : exists ev w',
             evaluate_complaint (Fixture.env twice_cited) "complaint_004.txt"
               "COMPLAINT ..." ∅ "gpt-5-mini" "gpt-5-mini" Fixture.empty_world
             = (Returned ev, w') /\ CE.case_citations ev = 2).
  { eexists _, _. split; vm_compute; reflexivity. }
  destruct Hrun as (ev & w' & Hrun & Hcases).
  destruct (repeated_citation_looked_up_once (Fixture.env twice_cited) _ _ _ _ _ _
              (emit (EvExtract "gpt-5-mini" "COMPLAINT ...") Fixture.empty_world)
              _ twice_cited _ eq_refl Hrun) as (l & Hl & Hn & _).
  exists ev, w', l. split; [exact Hrun|]. split; [exact Hcases|]. split; [exact Hl|].
  assert (Hkeys : size (case_keys (Fixture.env twice_cited) twice_cited
                        ∖ dom (cache Fixture.empty_world)) = 1%nat).
  { vm_compute. reflexivity. }
  rewrite Hkeys in Hn. exact Hn.
Defined.

End ComplaintMore.
